(** * RMM: free-list registry, manager context and log entry points

  A shallow embedding of
    - [include/rmm/mr/device/detail/free_list.hpp]  (module [free_list]),
    - [include/rmm/detail/memory_manager.hpp]       (modules [Logger], [Manager]),
    - [src/rmm.cpp]                                 (module [rmm_api]),
  together with the properties of these components that the design
  document states.

  Conventions.  A [std::list<block_t>] is a [list block]; an iterator into
  it is the position it designates ([begin] is [0], [end] is the length).
  Addresses and byte counts are naturals of [N]: a block denotes a region
  of the device address space, so [ptr + size] is formed without wrap. *)

From Stdlib Require Import NArith ZArith Ascii String.
From stdpp Require Import base numbers list sorting gmap.

Set Default Proof Using "Type".

(* ===================================================================== *)
(** ** Block *)
(* ===================================================================== *)

Module Block.

(** Modelled from the spec: the [block] type that instantiates
    [free_list<block_t>] is declared in a header outside this development.
    The design document fixes its shape (an address and a byte count) and
    the meaning of each operation the free list calls. *)
Record block : Type := mk { ptr : N; size : N }.

(** Modelled from the spec: a default-constructed block has the null
    address and zero size; it is the "not found" sentinel. *)
Definition default : block := mk 0 0.

(** Modelled from the spec: ordering is by address ([operator<]). *)
Definition lt (a b : block) : bool := (ptr a <? ptr b)%N.

(** Modelled from the spec: [a] is contiguous before [b] iff
    [a.address + a.size == b.address]. *)
Definition is_contiguous_before (a b : block) : bool :=
  (ptr a + size a =? ptr b)%N.

(** Modelled from the spec: [fits(size)] iff [size <= this.size]. *)
Definition fits (a : block) (sz : N) : bool := (sz <=? size a)%N.

(** Modelled from the spec: [this] is a valid fit and is strictly smaller
    than [other], or [other] is not a valid fit while [this] is. *)
Definition is_better_fit (a : block) (sz : N) (other : block) : bool :=
  fits a sz && ((size a <? size other)%N || negb (fits other sz)).

(** Modelled from the spec: [merge] yields the block spanning both.  The
    free list calls it on an lvalue ([previous->merge(b)], [b.merge] of [next]),
    whose new value is the result; the moved-from argument is a local or an
    entry that is overwritten or erased right after, so it is not kept. *)
Definition merge (a other : block) : block := mk (ptr a) (size a + size other).

(** One past the last byte of the region. *)
Definition limit (a : block) : N := (ptr a + size a)%N.

Global Instance block_inhabited : Inhabited block := populate default.

Global Instance block_eq_dec : EqDecision block.
Proof. solve_decision. Defined.

End Block.

(* ===================================================================== *)
(** ** free_list *)
(* ===================================================================== *)

Module free_list.
Import Block.

(** [list_t blocks], the only data member. *)
Abbreviation list_t := (list block).

(** Iterators are positions. *)
Abbreviation iterator := nat.

Definition begin (blocks : list_t) : iterator := 0.
Definition end_ (blocks : list_t) : iterator := length blocks.

(** [*it] and [it->]; only evaluated at positions before [end_]. *)
Definition deref (blocks : list_t) (it : iterator) : block := blocks !!! it.

(** [*it = v]. *)
Definition assign (it : iterator) (v : block) (blocks : list_t) : list_t :=
  <[it := v]> blocks.

Definition size (blocks : list_t) : nat := length blocks.

Definition is_empty (blocks : list_t) : bool :=
  match blocks with [] => true | _ :: _ => false end.

(** [blocks.emplace(pos, b)]: insert before [pos]. *)
Definition emplace (pos : iterator) (b : block) (blocks : list_t) : list_t :=
  take pos blocks ++ b :: drop pos blocks.

(** [blocks.erase(iter)]. *)
Definition erase (iter : iterator) (blocks : list_t) : list_t :=
  delete iter blocks.

Definition clear (blocks : list_t) : list_t := [].

(** [std::find_if(first, last, pred)]: the first position whose element
    satisfies [pred], [end_] when there is none. *)
Fixpoint find_if (pred : block -> bool) (blocks : list_t) : iterator :=
  match blocks with
  | [] => 0
  | i :: rest => if pred i then 0 else S (find_if pred rest)
  end.

(** The four locals of [coalesced_emplace], in the order they are
    computed. *)
Definition next_of (blocks : list_t) (b : block) : iterator :=
  find_if (lt b) blocks.

Definition previous_of (blocks : list_t) (next : iterator) : iterator :=
  if Nat.eqb next (begin blocks) then next else Nat.pred next.

Definition merge_prev_of (blocks : list_t) (b : block) : bool :=
  let next := next_of blocks b in
  let previous := previous_of blocks next in
  is_contiguous_before (deref blocks previous) b.

Definition merge_next_of (blocks : list_t) (b : block) : bool :=
  let next := next_of blocks b in
  negb (Nat.eqb next (end_ blocks)) && is_contiguous_before b (deref blocks next).

Definition coalesced_emplace (blocks : list_t) (b : block) : list_t :=
  if is_empty blocks then emplace (end_ blocks) b blocks
  else
    let next := next_of blocks b in
    let previous := previous_of blocks next in
    let merge_prev := merge_prev_of blocks b in
    let merge_next := merge_next_of blocks b in
    if merge_prev && merge_next then
      let blocks1 := assign previous (merge (deref blocks previous) b) blocks in
      let blocks2 :=
        assign previous (merge (deref blocks1 previous) (deref blocks1 next)) blocks1 in
      erase next blocks2
    else if merge_prev then
      assign previous (merge (deref blocks previous) b) blocks
    else if merge_next then
      assign next (merge b (deref blocks next)) blocks
    else
      emplace next b blocks.

(** [insert(block_t b)]. *)
Definition insert (blocks : list_t) (b : block) : list_t :=
  coalesced_emplace blocks b.

(** [insert(first, last)]: [std::for_each] over the range. *)
Definition insert_range (blocks : list_t) (range : list block) : list_t :=
  foldl insert blocks range.

(** [std::min_element(first, last, comp)]: the loop keeps the position of
    the smallest element seen so far and replaces it only by an element
    that compares strictly before it. *)
Fixpoint min_element_loop (comp : block -> block -> bool)
    (rest : list_t) (first : iterator) (smallest : iterator) (smallest_v : block)
    : iterator :=
  match rest with
  | [] => smallest
  | x :: rest' =>
      if comp x smallest_v
      then min_element_loop comp rest' (S first) first x
      else min_element_loop comp rest' (S first) smallest smallest_v
  end.

Definition min_element (comp : block -> block -> bool) (blocks : list_t) : iterator :=
  match blocks with
  | [] => end_ blocks
  | x :: rest => min_element_loop comp rest 1 0 x
  end.

(** [best_fit(size)]: the returned block and the list left behind. *)
Definition best_fit (blocks : list_t) (sz : N) : block * list_t :=
  let iter := min_element (fun lhs rhs => is_better_fit lhs sz rhs) blocks in
  if negb (Nat.eqb iter (end_ blocks)) && fits (deref blocks iter) sz
  then
    let found := deref blocks iter in
    (found, erase iter blocks)
  else (default, blocks).

End free_list.


(* ===================================================================== *)
(** ** Status codes and configuration ([rmm_api.h], [cnmem.h]) *)
(* ===================================================================== *)

Module api.

(** [rmmError_t]: the status codes named in [memory_manager.hpp] and
    [rmm.cpp]. *)
Inductive rmmError_t : Type :=
| RMM_SUCCESS
| RMM_ERROR_CUDA_ERROR
| RMM_ERROR_INVALID_ARGUMENT
| RMM_ERROR_NOT_INITIALIZED
| RMM_ERROR_OUT_OF_MEMORY
| RMM_ERROR_UNKNOWN
| RMM_ERROR_IO.

(** [cnmemStatus_t]: the cases of the switch in [RMM_CHECK_CNMEM]; any
    further value takes its [default] label. *)
Inductive cnmemStatus_t : Type :=
| CNMEM_STATUS_SUCCESS
| CNMEM_STATUS_CUDA_ERROR
| CNMEM_STATUS_INVALID_ARGUMENT
| CNMEM_STATUS_NOT_INITIALIZED
| CNMEM_STATUS_OUT_OF_MEMORY
| CNMEM_STATUS_UNKNOWN_ERROR
| CNMEM_STATUS_other.

(** [cudaError_t] is an integer code. *)
Definition cudaError_t : Type := Z.

(** [cudaStream_t] is a pointer, kept as its value. *)
Definition cudaStream_t : Type := N.

(** Modelled from the spec: [rmmOptions_t] is declared in [rmm_api.h]; the
    configuration is the allocation mode, the initial pool size and the
    managed-memory flag.  The mode is an integer combined from flags. *)
Record rmmOptions_t : Type := mk_options {
  allocation_mode : Z;
  initial_pool_size : N;
  managed_memory_flag : bool
}.

(** [cnmemDevice_t], as [rmmInitialize] fills it. *)
Record cnmemDevice_t : Type := mk_device {
  device : Z;
  size : N;
  numStreams : N;
  streams : list cudaStream_t;
  streamSizes : N
}.

(** What the headers outside this development fix: the enumerators of
    [rmmAllocationMode_t], [CNMEM_FLAGS_MANAGED], the macro [RMM_CHECK_CUDA]
    ([None] when control falls through, [Some e] when the macro returns [e]),
    and the text that [Logger::to_csv] renders for a log. *)
Class externals (log : Type) : Type := {
  PoolAllocation : Z;
  CudaManagedMemory : Z;
  CudaDefaultAllocation : Z;
  CNMEM_FLAGS_MANAGED : Z;
  RMM_CHECK_CUDA : cudaError_t -> option rmmError_t;
  csv_text : log -> list ascii
}.

(** An [int] in a boolean context. *)
Definition to_bool (x : Z) : bool := negb (x =? 0)%Z.

(** [RMM_CHECK_CNMEM(call)], applied to the status the call produced:
    [None] when control falls through, [Some e] when the macro returns [e]. *)
Definition RMM_CHECK_CNMEM (error : cnmemStatus_t) : option rmmError_t :=
  match error with
  | CNMEM_STATUS_SUCCESS => None
  | CNMEM_STATUS_CUDA_ERROR => Some RMM_ERROR_CUDA_ERROR
  | CNMEM_STATUS_INVALID_ARGUMENT => Some RMM_ERROR_INVALID_ARGUMENT
  | CNMEM_STATUS_NOT_INITIALIZED => Some RMM_ERROR_NOT_INITIALIZED
  | CNMEM_STATUS_OUT_OF_MEMORY => Some RMM_ERROR_OUT_OF_MEMORY
  | CNMEM_STATUS_UNKNOWN_ERROR => Some RMM_ERROR_UNKNOWN
  | CNMEM_STATUS_other => Some RMM_ERROR_UNKNOWN
  end.

End api.

(* ===================================================================== *)
(** ** Output streams *)
(* ===================================================================== *)

Module ios.

(** A [std::ostream]: the characters its buffer has taken, whether the
    buffer takes a further run of characters, the error state ([failbit] or
    [badbit] set) and whether the exception mask selects these bits. *)
Record ostream : Type := mk_ostream {
  str : list ascii;
  sink : list ascii -> bool;
  failed : bool;
  exceptions : bool
}.

(** A call either returns or throws [std::ios_base::failure]. *)
Inductive outcome (A : Type) : Type :=
| returns (a : A)
| throws_failure.
Arguments returns {A} a.
Arguments throws_failure {A}.

Definition bind {A B : Type} (x : outcome A) (k : A -> outcome B) : outcome B :=
  match x with
  | returns a => k a
  | throws_failure => throws_failure
  end.

Notation "x <- e ;; k" := (bind e (fun x => k))
  (at level 100, e at next level, right associativity).

(** [setstate(failbit)] or [setstate(badbit)]: throws only when the mask
    selects the bit. *)
Definition setstate (os : ostream) : outcome ostream :=
  if exceptions os then throws_failure
  else returns (mk_ostream (str os) (sink os) true (exceptions os)).

(** [os << s]: nothing is written once the stream is in an error state. *)
Definition put (s : list ascii) (os : ostream) : outcome ostream :=
  if failed os then setstate os
  else if sink os s
       then returns (mk_ostream (str os ++ s) (sink os) (failed os) (exceptions os))
       else setstate os.

(** [std::ostringstream csv;]: a buffer in memory, default mask. *)
Definition ostringstream : ostream := mk_ostream [] (fun _ => true) false false.

(** Which paths can be opened for writing, and whether an opened file
    takes a run of characters. *)
Record file_system : Type := mk_fs {
  can_open : string -> bool;
  accepts : string -> list ascii -> bool
}.

(** [std::ofstream csv;]: no file yet, default mask. *)
Definition ofstream : ostream := mk_ostream [] (fun _ => false) false false.

(** [csv.open(filename)]. *)
Definition open (fs : file_system) (filename : string) (os : ostream) : outcome ostream :=
  if can_open fs filename
  then returns (mk_ostream (str os) (accepts fs filename) (failed os) (exceptions os))
  else setstate os.

(** [std::string::copy(dest, count)]: copies [min count (size ())]
    characters to the front of [dest], which is the memory from the
    destination pointer on; no terminator is written. *)
Definition string_copy (s : list ascii) (dest : list ascii) (count : nat) : list ascii :=
  let rcount := Nat.min count (length s) in
  take rcount s ++ drop rcount dest.

End ios.

(* ===================================================================== *)
(** ** Logger *)
(* ===================================================================== *)

Module Logger.
Import api ios.

Inductive MemEvent_t : Type := Alloc | Realloc | Free.

Record MemoryEvent : Type := mk_event {
  event : MemEvent_t;
  deviceId : Z;
  ptr : N;
  size : N;
  stream : cudaStream_t;
  freeMem : N;
  totalMem : N;
  currentAllocations : N;
  start : Z;
  end_ : Z;
  filename : string;
  line : N
}.

(** The data members; [log_mutex] guards them and carries no data. *)
Record t : Type := mk {
  current_allocations : gset N;
  base_time : Z;
  events : list MemoryEvent
}.

(** Modelled from the spec: [Logger::clear] is only declared in
    [memory_manager.hpp]; it drops all records and resets the set of live
    pointers. *)
Definition clear (l : t) : t := mk ∅ (base_time l) [].

(** Modelled from the spec: [Logger::to_csv] is only declared in
    [memory_manager.hpp]; it writes the rendering of the records, header
    first and in insertion order, to the stream it is given. *)
Definition to_csv `{!externals t} (l : t) (csv : ostream) : outcome ostream :=
  put (csv_text l) csv.

End Logger.

(* ===================================================================== *)
(** ** Manager *)
(* ===================================================================== *)

Module Manager.
Import api ios.

(** The data members of the singleton; [streams_mutex] carries no data.
    The one instance lives for the whole run: a member function maps the
    instance to the instance. *)
Record t : Type := mk {
  registered_streams : gset cudaStream_t;
  logger : Logger.t;
  options : rmmOptions_t
}.

Section with_externals.
Context `{!externals Logger.t}.

Definition getLogger (m : t) : Logger.t := logger m.

Definition setOptions (opts : rmmOptions_t) (m : t) : t :=
  mk (registered_streams m) (logger m) opts.

Definition getOptions (m : t) : rmmOptions_t := options m.

Definition usePoolAllocator (m : t) : bool :=
  to_bool (Z.land (allocation_mode (getOptions m)) PoolAllocation).

Definition useManagedMemory (m : t) : bool :=
  to_bool (Z.land (allocation_mode (getOptions m)) CudaManagedMemory).

Definition useCudaDefaultAllocator (m : t) : bool :=
  (CudaDefaultAllocation =? allocation_mode (getOptions m))%Z.

Definition finalize (m : t) : t :=
  let m1 := mk ∅ (logger m) (options m) in
  mk (registered_streams m1) (Logger.clear (logger m1)) (options m1).

End with_externals.

End Manager.

(* ===================================================================== *)
(** ** Entry points ([rmm.cpp]) *)
(* ===================================================================== *)

Module rmm.
Import api ios.

(** The calls into the CUDA runtime and cnmem that an entry point makes,
    with their arguments. *)
Inductive call : Type :=
| call_cudaGetDevice
| call_cnmemInit (numDevices : N) (dev : cnmemDevice_t) (flags : Z)
| call_cnmemFinalize.

(** What these calls answer. *)
Record runtime : Type := mk_runtime {
  cudaGetDevice : cudaError_t * Z;
  cnmemInit : N -> cnmemDevice_t -> Z -> cnmemStatus_t;
  cnmemFinalize : cnmemStatus_t
}.

(** What an entry point leaves: its status, the manager, the calls made. *)
Record result : Type := mk_result {
  status : rmmError_t;
  manager : Manager.t;
  calls : list call
}.

Section with_externals.
Context `{!externals Logger.t}.

(** [rmmInitialize(options)]; [None] is the null pointer. *)
Definition rmmInitialize (rt : runtime) (options : option rmmOptions_t)
    (m : Manager.t) : result :=
  let m :=
    match options with
    | Some o => Manager.setOptions o m
    | None => m
    end in
  if Manager.usePoolAllocator m then
    let '(err, dev_device) := cudaGetDevice rt in
    match RMM_CHECK_CUDA err with
    | Some e => mk_result e m [call_cudaGetDevice]
    | None =>
        let dev_size := initial_pool_size (Manager.getOptions m) in
        let dev_numStreams := 1%N in
        let streams := [0%N] in
        let dev := mk_device dev_device dev_size dev_numStreams streams 0 in
        let flags := if Manager.useManagedMemory m then CNMEM_FLAGS_MANAGED else 0%Z in
        match RMM_CHECK_CNMEM (cnmemInit rt 1 dev flags) with
        | Some e => mk_result e m [call_cudaGetDevice; call_cnmemInit 1 dev flags]
        | None => mk_result RMM_SUCCESS m [call_cudaGetDevice; call_cnmemInit 1 dev flags]
        end
    end
  else mk_result RMM_SUCCESS m [].

(** [rmmFinalize()]. *)
Definition rmmFinalize (rt : runtime) (m : Manager.t) : result :=
  if Manager.usePoolAllocator m then
    match RMM_CHECK_CNMEM (cnmemFinalize rt) with
    | Some e => mk_result e m [call_cnmemFinalize]
    | None => mk_result RMM_SUCCESS (Manager.finalize m) [call_cnmemFinalize]
    end
  else mk_result RMM_SUCCESS (Manager.finalize m) [].

(** The [try] block of [rmmWriteLog]: the stream as it is when the block
    is left normally. *)
Definition rmmWriteLog_try (fs : file_system) (m : Manager.t) (filename : string)
    : outcome ostream :=
  csv <- open fs filename ofstream ;;
  Logger.to_csv (Manager.getLogger m) csv.

(** [rmmWriteLog(filename)]. *)
Definition rmmWriteLog (fs : file_system) (m : Manager.t) (filename : string)
    : rmmError_t :=
  match rmmWriteLog_try fs m filename with
  | returns _ => RMM_SUCCESS
  | throws_failure => RMM_ERROR_IO
  end.

(** [rmmLogSize()]: no handler here, a failure would leave the function. *)
Definition rmmLogSize (m : Manager.t) : outcome nat :=
  csv <- Logger.to_csv (Manager.getLogger m) ostringstream ;;
  returns (length (str csv)).

(** The [try] block of [rmmGetLog]: the caller's memory from [buffer] on,
    as the block leaves it. *)
Definition rmmGetLog_try (m : Manager.t) (buffer : list ascii) (buffer_size : nat)
    : outcome (list ascii) :=
  csv <- Logger.to_csv (Manager.getLogger m) ostringstream ;;
  returns (string_copy (str csv) buffer (Nat.min buffer_size (length (str csv)))).

(** [rmmGetLog(buffer, buffer_size)]: the status and the caller's memory
    afterwards. *)
Definition rmmGetLog (m : Manager.t) (buffer : list ascii) (buffer_size : nat)
    : rmmError_t * list ascii :=
  match rmmGetLog_try m buffer buffer_size with
  | returns buffer' => (RMM_SUCCESS, buffer')
  | throws_failure => (RMM_ERROR_IO, buffer)
  end.

End with_externals.

(** [CUresult]: the driver's status; the entry point only compares it with
    [CUDA_SUCCESS]. *)
Inductive CUresult : Type :=
| CUDA_SUCCESS
| CUDA_ERROR (code : Z).

(** A 64-bit pointer value read as a [ptrdiff_t] (two's complement). *)
Definition to_ptrdiff (p : N) : Z :=
  let z := (Z.of_N p mod 2 ^ 64)%Z in
  if (z <? 2 ^ 63)%Z then z else (z - 2 ^ 64)%Z.

(** Subtraction of two [ptrdiff_t], kept in 64 bits. *)
Definition ptrdiff_sub (a b : Z) : Z :=
  ((a - b + 2 ^ 63) mod 2 ^ 64 - 2 ^ 63)%Z.

(** [rmmGetAllocationOffset(offset, ptr, stream)]: the status and the value
    of [*offset] afterwards.  The driver call takes the value [base] holds
    and the pointer and answers with its status and the value it leaves in
    [base]; it is asked for no size. *)
Definition rmmGetAllocationOffset
    (cuMemGetAddressRange : N -> N -> CUresult * N)
    (offset : Z) (ptr : N) (stream : cudaStream_t) : rmmError_t * Z :=
  let base := 0xffffffff%N in
  let '(res, base) := cuMemGetAddressRange base ptr in
  match res with
  | CUDA_ERROR _ => (RMM_ERROR_INVALID_ARGUMENT, offset)
  | CUDA_SUCCESS => (RMM_SUCCESS, ptrdiff_sub (to_ptrdiff ptr) (to_ptrdiff base))
  end.

End rmm.

(* ===================================================================== *)
(** ** Vocabulary of the statements about the free list *)
(* ===================================================================== *)

Module free_list_spec.
Import Block free_list.

(** Two regions overlap when each starts before the other one stops. *)
Definition overlap (a b : block) : bool :=
  (ptr a <? limit b)%N && (ptr b <? limit a)%N.

(** A sequence of blocks no two of which overlap. *)
Fixpoint mutually_non_overlapping (bs : list block) : bool :=
  match bs with
  | [] => true
  | b :: rest =>
      forallb (fun c => negb (overlap b c)) rest && mutually_non_overlapping rest
  end.

(** Every block of the sequence holds at least one byte. *)
Definition all_positive (bs : list block) : bool :=
  forallb (fun b => (0 <? Block.size b)%N) bs.

(** [a] stops strictly before [b] starts. *)
Definition gap (a b : block) : Prop := (limit a < ptr b)%N.

(** The state the registry is kept in: non-empty entries in ascending
    address order, with a gap between any entry and every later one. *)
Definition coalesced (l : list_t) : Prop :=
  Forall (λ e, (0 < Block.size e)%N) l ∧ StronglySorted gap l.

(** No entry is contiguous before another entry. *)
Definition no_contiguous_entries (l : list_t) : Prop :=
  ∀ i j a b, i ≠ j → l !! i = Some a → l !! j = Some b →
             is_contiguous_before a b = false.

(** The address [x] lies in the region of [e]. *)
Definition inside (x : N) (e : block) : Prop := (ptr e ≤ x < limit e)%N.

(** The address [x] lies in the region of some entry. *)
Definition covered (x : N) (l : list_t) : Prop := Exists (inside x) l.

(** The bytes the entries hold together. *)
Definition total_size (l : list_t) : N :=
  foldr (fun e acc => (Block.size e + acc)%N) 0%N l.

(** Entries in ascending address order. *)
Definition address_ordered (l : list_t) : Prop :=
  StronglySorted (λ a b, (ptr a ≤ ptr b)%N) l.

(** [0] or [1] for a test, to count with. *)
Definition count_if (t : bool) : nat := if t then 1 else 0.

End free_list_spec.

(* ===================================================================== *)
(** ** Vocabulary of the statements about the manager *)
(* ===================================================================== *)

Module manager_spec.

(** The design document's words for the mode queries: a bitmask comparison
    of the configured mode against a flag succeeds when the two have a set
    bit in common. *)
Definition bitmask_test (mode flag : Z) : Prop :=
  ∃ n, (0 ≤ n)%Z ∧ Z.testbit mode n = true ∧ Z.testbit flag n = true.

End manager_spec.

(* ===================================================================== *)
(** ** Concrete configurations to evaluate the entry points with *)
(* ===================================================================== *)

Module samples.
Import api ios rmm.

(** One choice of what the headers fix. *)
Definition sample_externals : externals Logger.t :=
  {| PoolAllocation := 1;
     CudaManagedMemory := 2;
     CudaDefaultAllocation := 0;
     CNMEM_FLAGS_MANAGED := 1;
     RMM_CHECK_CUDA := λ e, if (e =? 0)%Z then None else Some RMM_ERROR_CUDA_ERROR;
     csv_text := λ l, replicate (length (Logger.events l)) "e"%char |}.

Definition sample_runtime : runtime :=
  mk_runtime (0%Z, 3%Z) (λ _ _ _, CNMEM_STATUS_SUCCESS) CNMEM_STATUS_SUCCESS.

Definition sample_manager (mode : Z) (pool : N) : Manager.t :=
  Manager.mk ∅ (Logger.mk ∅ 0 []) (mk_options mode pool false).

(** A file system in which exactly [rmm_log.csv] can be written. *)
Definition sample_fs : file_system :=
  mk_fs (λ path, String.eqb path "rmm_log.csv") (λ _ _, true).

(** A log with two records. *)
Definition sample_event (e : Logger.MemEvent_t) (p : N) : Logger.MemoryEvent :=
  Logger.mk_event e 0%Z p 256%N 0%N 4096%N 8192%N 1%N 0%Z 1%Z "main.cu" 42%N.

Definition sample_log_manager : Manager.t :=
  Manager.mk {[ 0%N ]}
    (Logger.mk {[ 4096%N ]} 0 [sample_event Logger.Alloc 4096; sample_event Logger.Alloc 8192])
    (mk_options 1 1024 false).

(** A driver that knows one allocation, of 4096 bytes at address 65536. *)
Definition sample_driver (base ptr : N) : CUresult * N :=
  if ((65536 <=? ptr) && (ptr <? 65536 + 4096))%N
  then (CUDA_SUCCESS, 65536%N)
  else (CUDA_ERROR 1, base).

(** A runtime in which [cnmemFinalize] fails. *)
Definition sample_runtime_failing : runtime :=
  mk_runtime (0%Z, 3%Z) (λ _ _ _, CNMEM_STATUS_OUT_OF_MEMORY) CNMEM_STATUS_NOT_INITIALIZED.

End samples.

(* ===================================================================== *)
(** * Properties of the free list *)
(* ===================================================================== *)

Module free_list_theory.
Import Block free_list free_list_spec.

(** ** Positions in a list written as a concatenation *)

Section positions.
Context {A : Type} `{!Inhabited A}.
Implicit Types (l r : list A) (x y v : A).

Lemma at_mid0 l x r : (l ++ x :: r) !!! length l = x.
Proof. by apply list_lookup_total_middle. Qed.

Lemma at_mid1 l x y r : (l ++ x :: y :: r) !!! S (length l) = y.
Proof.
  replace (l ++ x :: y :: r) with ((l ++ [x]) ++ y :: r) by by rewrite <- app_assoc.
  apply list_lookup_total_middle. rewrite length_app. simpl. lia.
Qed.

Lemma set_mid0 l x r v : <[length l := v]> (l ++ x :: r) = l ++ v :: r.
Proof. rewrite insert_app_r_alt by lia. by rewrite Nat.sub_diag. Qed.

Lemma set_mid1 l x y r v : <[S (length l) := v]> (l ++ x :: y :: r) = l ++ x :: v :: r.
Proof.
  rewrite insert_app_r_alt by lia.
  by replace (S (length l) - length l) with 1 by lia.
Qed.

Lemma delete_mid1 l x y r : delete (S (length l)) (l ++ x :: y :: r) = l ++ x :: r.
Proof.
  replace (l ++ x :: y :: r) with ((l ++ [x]) ++ y :: r) by by rewrite <- app_assoc.
  replace (S (length l)) with (length (l ++ [x])) by (rewrite length_app; simpl; lia).
  by rewrite delete_middle, <- app_assoc.
Qed.

Lemma take_mid1 l x r : take (S (length l)) (l ++ x :: r) = l ++ [x].
Proof.
  replace (l ++ x :: r) with ((l ++ [x]) ++ r) by by rewrite <- app_assoc.
  apply take_app_length'. rewrite length_app. simpl. lia.
Qed.

Lemma drop_mid1 l x r : drop (S (length l)) (l ++ x :: r) = r.
Proof.
  replace (l ++ x :: r) with ((l ++ [x]) ++ r) by by rewrite <- app_assoc.
  apply drop_app_length'. rewrite length_app. simpl. lia.
Qed.

End positions.

(** ** [find_if] *)

Lemma find_if_app_false pred (l1 l2 : list_t) :
  Forall (λ i, pred i = false) l1 →
  find_if pred (l1 ++ l2) = length l1 + find_if pred l2.
Proof.
  induction 1 as [|i l1 Hi _ IH]; simpl; [done|]. by rewrite Hi, IH.
Qed.

Lemma find_if_end pred (l : list_t) :
  Forall (λ i, pred i = false) l → find_if pred l = length l.
Proof.
  intros H. rewrite <- (app_nil_r l) at 1.
  rewrite find_if_app_false by done. simpl. lia.
Qed.

(** The list splits at the position [find_if] returns. *)
Lemma find_if_split pred (l : list_t) :
  ∃ l1 l2, l = l1 ++ l2 ∧ Forall (λ i, pred i = false) l1 ∧
           match l2 with [] => True | n :: _ => pred n = true end.
Proof.
  induction l as [|i l (l1 & l2 & -> & H1 & H2)].
  - by exists [], [].
  - destruct (pred i) eqn:Hi.
    + by exists [], (i :: l1 ++ l2).
    + exists (i :: l1), l2. split_and!; [done|by constructor|done].
Qed.

(** ** The shape of the list after [coalesced_emplace] *)

Lemma coalesced_emplace_nil b : coalesced_emplace [] b = [b].
Proof. reflexivity. Qed.

(** The new block sorts before the first entry: [previous] is [next]. *)
Lemma coalesced_emplace_front n r b :
  lt b n = true →
  coalesced_emplace (n :: r) b =
    if is_contiguous_before n b && is_contiguous_before b n then r
    else if is_contiguous_before n b then merge n b :: r
    else if is_contiguous_before b n then merge b n :: r
    else b :: n :: r.
Proof.
  intros Hlt.
  unfold coalesced_emplace, merge_prev_of, merge_next_of, next_of, previous_of.
  simpl. rewrite Hlt. simpl. unfold deref. simpl.
  by destruct (is_contiguous_before n b), (is_contiguous_before b n).
Qed.

(** The new block sorts after every entry: [next] is [end_]. *)
Lemma coalesced_emplace_back l1 p b :
  Forall (λ i, lt b i = false) (l1 ++ [p]) →
  coalesced_emplace (l1 ++ [p]) b =
    l1 ++ (if is_contiguous_before p b then [merge p b] else [p; b]).
Proof.
  intros Hall.
  unfold coalesced_emplace, merge_prev_of, merge_next_of, next_of, previous_of.
  rewrite (find_if_end _ _ Hall).
  replace (is_empty (l1 ++ [p])) with false by by destruct l1.
  unfold begin, end_, deref, assign, emplace.
  rewrite length_app. simpl.
  replace (length l1 + 1 =? 0) with false by (symmetry; apply Nat.eqb_neq; lia).
  rewrite Nat.eqb_refl. simpl.
  replace (Nat.pred (length l1 + 1)) with (length l1) by lia.
  rewrite list_lookup_total_middle by done.
  destruct (is_contiguous_before p b).
  - rewrite insert_app_r_alt by lia. by rewrite Nat.sub_diag.
  - rewrite firstn_all2, skipn_all2 by (rewrite length_app; simpl; lia).
    by rewrite <- app_assoc.
Qed.

(** The new block sorts between [p] and [n]. *)
Lemma coalesced_emplace_middle l1 p n r b :
  Forall (λ i, lt b i = false) (l1 ++ [p]) →
  lt b n = true →
  coalesced_emplace (l1 ++ p :: n :: r) b =
    l1 ++ (if is_contiguous_before p b && is_contiguous_before b n
           then [merge (merge p b) n]
           else if is_contiguous_before p b then [merge p b; n]
           else if is_contiguous_before b n then [p; merge b n]
           else [p; b; n]) ++ r.
Proof.
  intros Hall Hlt.
  unfold coalesced_emplace, merge_prev_of, merge_next_of, next_of, previous_of.
  replace (l1 ++ p :: n :: r) with ((l1 ++ [p]) ++ n :: r) by by rewrite <- app_assoc.
  rewrite (find_if_app_false _ _ _ Hall). simpl. rewrite Hlt.
  replace (is_empty ((l1 ++ [p]) ++ n :: r)) with false by by destruct l1.
  unfold begin, end_, deref, assign, emplace, erase.
  rewrite !length_app. simpl.
  replace (length l1 + 1 + 0) with (S (length l1)) by lia.
  replace (S (length l1) =? 0) with false by done.
  replace (S (length l1) =? length l1 + 1 + S (length r)) with false
    by (symmetry; apply Nat.eqb_neq; lia).
  simpl.
  rewrite <- !app_assoc. simpl.
  rewrite !at_mid0, !at_mid1.
  destruct (is_contiguous_before p b), (is_contiguous_before b n); simpl.
  - by rewrite !set_mid0, at_mid0, at_mid1, delete_mid1.
  - by rewrite set_mid0.
  - by rewrite set_mid1.
  - by rewrite take_mid1, drop_mid1, <- app_assoc.
Qed.

(** The four situations [coalesced_emplace] can be in, each with the list
    it leaves. *)
Lemma insert_shape l b :
  (l = [] ∧ insert l b = [b]) ∨
  (∃ n r, l = n :: r ∧ lt b n = true ∧
     insert l b =
       if is_contiguous_before n b && is_contiguous_before b n then r
       else if is_contiguous_before n b then merge n b :: r
       else if is_contiguous_before b n then merge b n :: r
       else b :: n :: r) ∨
  (∃ l1 p, l = l1 ++ [p] ++ [] ∧ lt b p = false ∧
     insert l b =
       l1 ++ (if is_contiguous_before p b then [merge p b] else [p; b]) ++ []) ∨
  (∃ l1 p n r, l = l1 ++ [p; n] ++ r ∧ lt b p = false ∧ lt b n = true ∧
     insert l b =
       l1 ++ (if is_contiguous_before p b && is_contiguous_before b n
              then [merge (merge p b) n]
              else if is_contiguous_before p b then [merge p b; n]
              else if is_contiguous_before b n then [p; merge b n]
              else [p; b; n]) ++ r).
Proof.
  unfold insert.
  destruct (find_if_split (lt b) l) as (l1 & l2 & -> & H1 & H2).
  destruct l1 as [|p l1 _] using rev_ind; [destruct l2 as [|n r]|destruct l2 as [|n r]].
  - by left.
  - right; left. exists n, r. simpl. by rewrite coalesced_emplace_front.
  - right; right; left. exists l1, p.
    pose proof H1 as H1'. rewrite Forall_app, Forall_singleton in H1'. destruct H1' as [_ Hp].
    rewrite !app_nil_r. by rewrite coalesced_emplace_back.
  - right; right; right. exists l1, p, n, r.
    pose proof H1 as H1'. rewrite Forall_app, Forall_singleton in H1'. destruct H1' as [_ Hp].
    rewrite <- app_assoc. simpl. by rewrite coalesced_emplace_middle.
Qed.

(** ** The invariant [coalesced] *)

Lemma coalesced_nil : coalesced [].
Proof. split; constructor. Qed.

Lemma coalesced_sandwich l1 mid r :
  coalesced (l1 ++ mid ++ r) ↔
    coalesced l1 ∧ coalesced mid ∧ coalesced r ∧
    Forall (λ x, Forall (gap x) mid) l1 ∧
    Forall (λ z, Forall (λ y, gap y z) mid) r ∧
    Forall (λ x, Forall (gap x) r) l1.
Proof.
  unfold coalesced.
  rewrite !Forall_app, !StronglySorted_app, !Forall_forall.
  setoid_rewrite Forall_forall. setoid_rewrite elem_of_app.
  split.
  - intros ((Hp1 & Hpm & Hpr) & Hx & Hs1 & Hy & Hsm & Hsr). split_and!; eauto.
  - intros ((Hp1 & Hs1) & (Hpm & Hsm) & (Hpr & Hsr) & Hlm & Hmr & Hlr).
    split_and!; eauto. intros x1 x2 Hx1 [Hx2|Hx2]; eauto.
Qed.

(** Replacing a run of entries by a coalesced run that keeps its distance
    from everything before and after preserves the invariant. *)
Lemma coalesced_replace l1 mid mid' r :
  coalesced (l1 ++ mid ++ r) →
  coalesced mid' →
  (∀ x, x ∈ l1 → Forall (gap x) mid → Forall (gap x) mid') →
  (∀ z, z ∈ r → Forall (λ y, gap y z) mid → Forall (λ y, gap y z) mid') →
  coalesced (l1 ++ mid' ++ r).
Proof.
  rewrite !coalesced_sandwich. intros (H1 & _ & Hr & Hl & Hm & Hlr) Hmid' Hx Hz.
  split_and!; try done.
  - rewrite Forall_forall in Hl |- *. auto.
  - rewrite Forall_forall in Hm |- *. auto.
Qed.

Lemma coalesced_lookup_gap l i j a b :
  coalesced l → i < j → l !! i = Some a → l !! j = Some b → gap a b.
Proof.
  intros [_ Hs] Hij Hi Hj.
  rewrite <- (take_drop_middle l i a Hi) in Hs, Hj.
  apply StronglySorted_app_1_r, StronglySorted_cons in Hs as [Hall _].
  rewrite Forall_forall in Hall. apply Hall.
  assert (length (take i l) = i) as Hlen
    by (apply length_take_le, Nat.lt_le_incl, (lookup_lt_Some _ _ _ Hi)).
  rewrite lookup_app_r, Hlen in Hj by lia.
  destruct (j - i) as [|k] eqn:Hk; [lia|]. simpl in Hj.
  by eapply list_elem_of_lookup_2.
Qed.

Lemma coalesced_positive l i a :
  coalesced l → l !! i = Some a → (0 < Block.size a)%N.
Proof. intros [Hp _] Hi. by eapply (Forall_lookup_1 _ _ _ _ Hp). Qed.

(** In a coalesced registry no entry is contiguous before another one. *)
Lemma coalesced_no_contiguous l : coalesced l → no_contiguous_entries l.
Proof.
  intros Hl i j a b Hij Hi Hj.
  unfold is_contiguous_before. apply N.eqb_neq.
  pose proof (coalesced_positive _ _ _ Hl Hj) as Hb.
  destruct (decide (i < j)) as [Hlt|Hge].
  - pose proof (coalesced_lookup_gap _ _ _ _ _ Hl Hlt Hi Hj) as Hg.
    unfold gap, limit in Hg. lia.
  - assert (j < i) as Hlt by lia.
    pose proof (coalesced_lookup_gap _ _ _ _ _ Hl Hlt Hj Hi) as Hg.
    unfold gap, limit in Hg. lia.
Qed.

(** ** One insertion *)

(** Reading the tests of [Block] as facts about addresses. *)
Ltac block_facts :=
  unfold is_better_fit, fits, is_contiguous_before, lt, overlap, gap, limit,
    merge in *;
  simpl in *;
  repeat match goal with
  | H : context [(?x <? ?y)%N] |- _ => destruct (N.ltb_spec x y)
  | |- context [(?x <? ?y)%N] => destruct (N.ltb_spec x y)
  | H : context [(?x <=? ?y)%N] |- _ => destruct (N.leb_spec x y)
  | |- context [(?x <=? ?y)%N] => destruct (N.leb_spec x y)
  | H : context [(?x =? ?y)%N] |- _ => destruct (N.eqb_spec x y)
  | |- context [(?x =? ?y)%N] => destruct (N.eqb_spec x y)
  end;
  simpl in *; try done; try lia; try (split; (done || lia)).

(** Taking apart the facts about a run of entries that is written out. *)
Ltac open_runs :=
  repeat match goal with
  | H : coalesced _ |- _ => destruct H as [? ?]
  | H : Forall _ (_ :: _) |- _ => apply Forall_cons in H as [? H]
  | H : Forall _ [] |- _ => clear H
  | H : StronglySorted _ (_ :: _) |- _ => apply StronglySorted_cons in H as [? H]
  | H : StronglySorted _ [] |- _ => clear H
  | H : _ ∈ [] |- _ => by apply not_elem_of_nil in H
  end.

Ltac build_runs :=
  repeat first
    [ apply Forall_nil_2 | apply Forall_cons_2
    | apply SSorted_nil | apply SSorted_cons
    | match goal with |- coalesced _ => split end ].

Ltac solve_run := intros; open_runs; build_runs; block_facts.

(** Inserting a non-empty block that overlaps no entry keeps the registry
    coalesced. *)
Lemma insert_coalesced l b :
  coalesced l →
  (0 < Block.size b)%N →
  Forall (λ e, overlap b e = false) l →
  coalesced (insert l b).
Proof.
  intros Hl Hb Hov.
  destruct (insert_shape l b) as
    [[-> ->]|[(n & r & -> & Hn & ->)|[(l1 & p & -> & Hp & ->)|
     (l1 & p & n & r & -> & Hp & Hn & ->)]]].
  - solve_run.
  - apply Forall_cons in Hov as [Hbn _].
    pose proof Hl as [Hn0 _]. apply Forall_cons in Hn0 as [Hn0 _].
    replace (is_contiguous_before n b) with false by block_facts. simpl.
    destruct (is_contiguous_before b n) eqn:Hc.
    + apply (coalesced_replace [] [n] [merge b n] r Hl); solve_run.
    + apply (coalesced_replace [] [n] [b; n] r Hl); solve_run.
  - rewrite !Forall_app, Forall_singleton in Hov. destruct Hov as (_ & Hbp & _).
    pose proof Hl as Hl'. rewrite coalesced_sandwich in Hl'.
    destruct Hl' as (_ & Hp0 & _).
    destruct (is_contiguous_before p b) eqn:Hc.
    + apply (coalesced_replace l1 [p] [merge p b] [] Hl); solve_run.
    + apply (coalesced_replace l1 [p] [p; b] [] Hl); solve_run.
  - rewrite !Forall_app in Hov. destruct Hov as (_ & Hbpn & _).
    pose proof Hl as Hl'. rewrite coalesced_sandwich in Hl'.
    destruct Hl' as (_ & Hpn & _).
    destruct (is_contiguous_before p b) eqn:Hc1,
             (is_contiguous_before b n) eqn:Hc2; simpl.
    + apply (coalesced_replace l1 [p; n] [merge (merge p b) n] r Hl); solve_run.
    + apply (coalesced_replace l1 [p; n] [merge p b; n] r Hl); solve_run.
    + apply (coalesced_replace l1 [p; n] [p; merge b n] r Hl); solve_run.
    + apply (coalesced_replace l1 [p; n] [p; b; n] r Hl); solve_run.
Qed.

(** A non-empty block that overlaps neither the inserted block nor any
    entry overlaps no entry after the insertion. *)
Lemma insert_keeps_clear l b c :
  (0 < Block.size c)%N →
  overlap c b = false →
  Forall (λ e, overlap c e = false) l →
  Forall (λ e, overlap c e = false) (insert l b).
Proof.
  intros Hc Hcb Hov.
  destruct (insert_shape l b) as
    [[-> ->]|[(n & r & -> & Hn & ->)|[(l1 & p & -> & Hp & ->)|
     (l1 & p & n & r & -> & Hp & Hn & ->)]]].
  - by apply Forall_singleton.
  - apply Forall_cons in Hov as [Hcn Hr].
    destruct (is_contiguous_before n b) eqn:Hc1,
             (is_contiguous_before b n) eqn:Hc2; simpl;
      try done; build_runs; try done; block_facts.
  - rewrite !Forall_app in Hov. destruct Hov as (H1 & Hcp & _).
    apply Forall_app. split; [done|]. apply Forall_app. split; [|done].
    destruct (is_contiguous_before p b) eqn:Hc1; solve_run.
  - rewrite !Forall_app in Hov. destruct Hov as (H1 & Hcpn & Hr).
    apply Forall_app. split; [done|]. apply Forall_app. split; [|done].
    destruct (is_contiguous_before p b) eqn:Hc1,
             (is_contiguous_before b n) eqn:Hc2; simpl; solve_run.
Qed.

(** ** A sequence of insertions *)

Lemma forallb_Forall {A} (f : A → bool) (l : list A) :
  forallb f l = true ↔ Forall (λ x, f x = true) l.
Proof.
  induction l as [|x l IH]; simpl.
  - split; [constructor|done].
  - rewrite andb_true_iff, Forall_cons, IH. done.
Qed.

Lemma overlap_sym a b : overlap a b = overlap b a.
Proof. unfold overlap. apply andb_comm. Qed.

Lemma insert_range_coalesced range : ∀ l,
  coalesced l →
  all_positive range = true →
  mutually_non_overlapping range = true →
  Forall (λ c, Forall (λ e, overlap c e = false) l) range →
  coalesced (insert_range l range).
Proof.
  unfold insert_range.
  induction range as [|b rest IH]; intros l Hl Hpos Hmno Hclear; simpl; [done|].
  simpl in Hpos, Hmno.
  apply andb_true_iff in Hpos as [Hb Hpos], Hmno as [Hbrest Hmno].
  apply N.ltb_lt in Hb.
  apply Forall_cons in Hclear as [Hbl Hclear].
  apply IH; [by apply insert_coalesced|done|done|].
  unfold all_positive in Hpos.
  rewrite forallb_Forall in Hpos, Hbrest.
  rewrite Forall_forall in Hpos, Hbrest, Hclear |- *.
  intros c Hc. apply insert_keeps_clear.
  - apply N.ltb_lt. auto.
  - rewrite overlap_sym. apply negb_true_iff. auto.
  - auto.
Qed.

(** ** [min_element] under the best-fit comparison *)

Lemma min_element_loop_best sz : ∀ rest pre k v,
  (pre ++ rest) !! k = Some v →
  (∀ e, e ∈ pre → fits e sz = true →
        fits v sz = true ∧ (Block.size v ≤ Block.size e)%N) →
  ∃ w,
    (pre ++ rest) !! min_element_loop (λ lhs rhs, is_better_fit lhs sz rhs)
                       rest (length pre) k v = Some w ∧
    (∀ e, e ∈ pre ++ rest → fits e sz = true →
          fits w sz = true ∧ (Block.size w ≤ Block.size e)%N).
Proof.
  induction rest as [|x rest IH]; intros pre k v Hk Hmin; simpl.
  - exists v. by rewrite app_nil_r in *.
  - replace (pre ++ x :: rest) with ((pre ++ [x]) ++ rest) in * by by rewrite <- app_assoc.
    replace (S (length pre)) with (length (pre ++ [x])) by (rewrite length_app; simpl; lia).
    destruct (is_better_fit x sz v) eqn:Hcmp.
    + apply IH.
      * rewrite <- app_assoc. simpl. by apply list_lookup_middle.
      * intros e [He| ->%list_elem_of_singleton]%elem_of_app Hfit.
        -- destruct (Hmin e He Hfit). block_facts.
        -- block_facts.
    + apply IH; [done|].
      intros e [He| ->%list_elem_of_singleton]%elem_of_app Hfit; [by apply Hmin|].
      block_facts.
Qed.

(** For a non-empty list [min_element] designates an entry, and under the
    best-fit comparison that entry fits whenever some entry does, with the
    least size among the entries that fit. *)
Lemma min_element_best sz (blocks : list_t) :
  blocks ≠ [] →
  ∃ w,
    blocks !! min_element (λ lhs rhs, is_better_fit lhs sz rhs) blocks = Some w ∧
    (∀ e, e ∈ blocks → fits e sz = true →
          fits w sz = true ∧ (Block.size w ≤ Block.size e)%N).
Proof.
  destruct blocks as [|x rest]; [done|intros _].
  apply (min_element_loop_best sz rest [x] 0 x); [done|].
  intros e ->%list_elem_of_singleton Hfit. split; [done|lia].
Qed.

Lemma best_fit_found (blocks : list_t) sz iter w :
  blocks !! iter = Some w → fits w sz = true →
  min_element (λ lhs rhs, is_better_fit lhs sz rhs) blocks = iter →
  best_fit blocks sz = (w, delete iter blocks).
Proof.
  intros Hw Hfit Hiter. unfold best_fit, deref, end_, erase. rewrite Hiter.
  rewrite (list_lookup_total_correct _ _ _ Hw), Hfit.
  pose proof (lookup_lt_Some _ _ _ Hw) as Hlt.
  by replace (iter =? length blocks) with false by (symmetry; apply Nat.eqb_neq; lia).
Qed.

Lemma best_fit_not_found (blocks : list_t) sz :
  Forall (λ e, fits e sz = false) blocks →
  best_fit blocks sz = (default, blocks).
Proof.
  intros Hnone. destruct (decide (blocks = [])) as [->|Hne]; [done|].
  destruct (min_element_best sz blocks Hne) as (w & Hw & _).
  unfold best_fit, deref. rewrite (list_lookup_total_correct _ _ _ Hw).
  rewrite Forall_forall in Hnone.
  rewrite (Hnone w) by by eapply list_elem_of_lookup_2.
  by rewrite andb_false_r.
Qed.

Lemma delete_not_elem_of {A} (l : list A) i x :
  NoDup l → l !! i = Some x → x ∉ delete i l.
Proof.
  intros Hnd Hi. rewrite <- (take_drop_middle l i x Hi) in Hnd.
  apply NoDup_app in Hnd as (_ & Hl & [Hr _]%NoDup_cons).
  rewrite delete_take_drop. intros [H|H]%elem_of_app; [|done].
  apply (Hl x H). by left.
Qed.

(* ===================================================================== *)
(** ** The statements of the design document about the free list *)
(* ===================================================================== *)

(** C1 (as amended).  For every sequence of insertions of mutually
    non-overlapping blocks of positive size into an initially empty
    registry, after all insertions no two entries of the registry satisfy
    [is_contiguous_before].  In particular, inserting [0,10) and [10,20),
    in either order, leaves exactly the one entry [0,20).  When both the
    predecessor [p] and the successor [n] of an inserted block [b] are
    contiguous with it, the three are merged into the one entry that starts
    at [p] and spans all three, and the successor's entry is erased. *)
Theorem insert_range_no_contiguous_entries :
  (∀ range,
     all_positive range = true →
     mutually_non_overlapping range = true →
     no_contiguous_entries (insert_range [] range)) ∧
  insert_range [] [mk 0 10; mk 10 10] = [mk 0 20] ∧
  insert_range [] [mk 10 10; mk 0 10] = [mk 0 20] ∧
  (∀ l1 p n r b,
     Forall (λ i, lt b i = false) (l1 ++ [p]) →
     lt b n = true →
     is_contiguous_before p b = true →
     is_contiguous_before b n = true →
     next_of (l1 ++ p :: n :: r) b = S (length l1) ∧
     previous_of (l1 ++ p :: n :: r) (S (length l1)) = length l1 ∧
     insert (l1 ++ p :: n :: r) b =
       l1 ++ mk (ptr p) (Block.size p + Block.size b + Block.size n) :: r ∧
     free_list.size (insert (l1 ++ p :: n :: r) b) + 1 =
       free_list.size (l1 ++ p :: n :: r)).
Proof.
  split_and!; [|done|done|].
  - intros range Hpos Hmno. apply coalesced_no_contiguous.
    apply insert_range_coalesced; [apply coalesced_nil|done|done|].
    apply Forall_forall. intros c _. constructor.
  - intros l1 p n r b Hall Hlt Hp Hn.
    assert (insert (l1 ++ p :: n :: r) b =
            l1 ++ mk (ptr p) (Block.size p + Block.size b + Block.size n) :: r) as Hins.
    { unfold insert. rewrite coalesced_emplace_middle by done. by rewrite Hp, Hn. }
    split_and!; [| |done|].
    + unfold next_of.
      replace (l1 ++ p :: n :: r) with ((l1 ++ [p]) ++ n :: r) by by rewrite <- app_assoc.
      rewrite find_if_app_false by done. simpl. rewrite Hlt, length_app. simpl. lia.
    + done.
    + rewrite Hins. unfold free_list.size. rewrite !length_app. simpl. lia.
Qed.

Lemma insert_range_no_contiguous_entries_witness :
  all_positive [mk 0 10; mk 20 10; mk 10 10; mk 64 8; mk 40 4] = true ∧
  mutually_non_overlapping [mk 0 10; mk 20 10; mk 10 10; mk 64 8; mk 40 4] = true ∧
  no_contiguous_entries
    (insert_range [] [mk 0 10; mk 20 10; mk 10 10; mk 64 8; mk 40 4]).
Proof.
  split; [reflexivity|]. split; [reflexivity|].
  apply (proj1 insert_range_no_contiguous_entries); reflexivity.
Defined.

(** The two blocks [5,8) and [5,5) share no byte, yet after inserting them
    in this order the registry holds both, and the second is contiguous
    before the first. *)
Lemma insert_range_empty_block_contiguous :
  mutually_non_overlapping [mk 5 3; mk 5 0] = true ∧
  insert_range [] [mk 5 3; mk 5 0] = [mk 5 3; mk 5 0] ∧
  ¬ no_contiguous_entries (insert_range [] [mk 5 3; mk 5 0]).
Proof.
  split; [reflexivity|]. split; [reflexivity|].
  intros H. by specialize (H 1 0 (mk 5 0) (mk 5 3) ltac:(lia) eq_refl eq_refl).
Qed.

(** C2.  Whenever at least one entry fits the request, [best_fit] returns
    an entry that fits and whose size is least among the entries that fit,
    and the registry it leaves is the old one without exactly that entry;
    with free blocks of sizes 100, 50 and 200 and a request for 60 bytes it
    returns the 100-byte block, which is then no longer in the registry. *)
Theorem best_fit_smallest_fitting :
  (∀ (blocks : list_t) sz,
     Exists (λ e, fits e sz = true) blocks →
     ∃ iter found,
       best_fit blocks sz = (found, delete iter blocks) ∧
       blocks !! iter = Some found ∧
       fits found sz = true ∧
       (∀ e, e ∈ blocks → fits e sz = true → (Block.size found ≤ Block.size e)%N) ∧
       free_list.size (delete iter blocks) + 1 = free_list.size blocks ∧
       (NoDup blocks → found ∉ delete iter blocks)) ∧
  best_fit [mk 0 100; mk 1000 50; mk 2000 200] 60
    = (mk 0 100, [mk 1000 50; mk 2000 200]) ∧
  mk 0 100 ∉ [mk 1000 50; mk 2000 200].
Proof.
  split_and!; [|done|].
  - intros blocks sz (e & He & Hfit)%Exists_exists.
    assert (blocks ≠ []) as Hne by (intros ->; by apply not_elem_of_nil in He).
    destruct (min_element_best sz blocks Hne) as (w & Hw & Hmin).
    destruct (Hmin e He Hfit) as [Hwfit _].
    eexists _, w. split_and!.
    + by apply best_fit_found.
    + done.
    + done.
    + intros e' He' Hfit'. by apply Hmin.
    + unfold free_list.size. rewrite length_delete by eauto. 
      pose proof (lookup_lt_Some _ _ _ Hw). lia.
    + intros Hnd. by apply delete_not_elem_of.
  - intros H. repeat (apply elem_of_cons in H as [H|H]; [done|]).
    by apply not_elem_of_nil in H.
Qed.

Lemma best_fit_smallest_fitting_witness :
  Exists (λ e, fits e 60 = true) [mk 0 200; mk 1000 50; mk 2000 100; mk 3000 100] ∧
  ∃ iter found,
    best_fit [mk 0 200; mk 1000 50; mk 2000 100; mk 3000 100] 60
      = (found, delete iter [mk 0 200; mk 1000 50; mk 2000 100; mk 3000 100]) ∧
    fits found 60 = true.
Proof.
  assert (Exists (λ e, fits e 60 = true)
            [mk 0 200; mk 1000 50; mk 2000 100; mk 3000 100]) as H
    by (apply Exists_cons_hd; reflexivity).
  split; [exact H|].
  destruct (proj1 best_fit_smallest_fitting _ 60%N H)
    as (iter & found & H1 & _ & H3 & _).
  by exists iter, found.
Defined.

(** C3.  When no entry fits the request, the empty registry included,
    [best_fit] returns the default-constructed block (null address, zero
    size) and leaves the contents and the size of the registry as they
    were. *)
Theorem best_fit_no_fit (blocks : list_t) sz :
  Forall (λ e, fits e sz = false) blocks →
  (best_fit blocks sz).1 = mk 0 0 ∧
  (best_fit blocks sz).2 = blocks ∧
  free_list.size (best_fit blocks sz).2 = free_list.size blocks.
Proof. intros Hnone. by rewrite best_fit_not_found. Qed.

Lemma best_fit_no_fit_witness :
  Forall (λ e, fits e 300 = false) [mk 0 100; mk 1000 50; mk 2000 200] ∧
  (best_fit [mk 0 100; mk 1000 50; mk 2000 200] 300).1 = mk 0 0 ∧
  (best_fit [mk 0 100; mk 1000 50; mk 2000 200] 300).2
    = [mk 0 100; mk 1000 50; mk 2000 200].
Proof.
  assert (Forall (λ e, fits e 300 = false) [mk 0 100; mk 1000 50; mk 2000 200]) as H
    by (repeat constructor).
  split; [exact H|].
  destruct (best_fit_no_fit _ 300%N H) as (H1 & H2 & _). by split.
Defined.

Example best_fit_empty sz : best_fit [] sz = (default, []).
Proof. reflexivity. Qed.

(** C8.  In a non-empty registry whose entries all have positive size, a
    block whose address is below the address of every entry finds [next]
    at [begin], so that [previous] is [next]; the test for merging with the
    predecessor fails; and the block either merges into the old first
    entry, when it is contiguous before it, or becomes a new first entry in
    front of the unchanged list. *)
Theorem insert_before_first (blocks : list_t) b :
  blocks ≠ [] →
  Forall (λ e, (0 < Block.size e)%N) blocks →
  Forall (λ e, (ptr b < ptr e)%N) blocks →
  next_of blocks b = begin blocks ∧
  previous_of blocks (next_of blocks b) = next_of blocks b ∧
  merge_prev_of blocks b = false ∧
  ∃ first rest, blocks = first :: rest ∧
    ((is_contiguous_before b first = true ∧
      insert blocks b = mk (ptr b) (Block.size b + Block.size first) :: rest) ∨
     (is_contiguous_before b first = false ∧
      insert blocks b = b :: blocks)).
Proof.
  intros Hne Hpos Hlow.
  destruct blocks as [|first rest]; [done|].
  apply Forall_cons in Hlow as [Hlow _].
  assert (lt b first = true) as Hlt by block_facts.
  assert (is_contiguous_before first b = false) as Hprev by block_facts.
  assert (next_of (first :: rest) b = 0) as Hnext
    by (unfold next_of; simpl; by rewrite Hlt).
  split_and!.
  - done.
  - by rewrite Hnext.
  - unfold merge_prev_of. by rewrite Hnext.
  - exists first, rest. split; [done|].
    unfold insert. rewrite coalesced_emplace_front, Hprev by done. simpl.
    destruct (is_contiguous_before b first); [by left|by right].
Qed.

Lemma insert_before_first_witness :
  insert [mk 10 10; mk 40 5] (mk 0 10) = [mk 0 20; mk 40 5].
Proof.
  destruct (insert_before_first [mk 10 10; mk 40 5] (mk 0 10))
    as (_ & _ & _ & first & rest & Heq & [[_ H]|[Hc _]]).
  - done.
  - repeat constructor.
  - repeat constructor.
  - injection Heq as <- <-. exact H.
  - injection Heq as <- <-. discriminate Hc.
Defined.

(* ===================================================================== *)
(** ** Further properties of the free list *)
(* ===================================================================== *)

(** *** Where [next] and [previous] point, and what the two tests read *)

Lemma next_of_front n r b : lt b n = true → next_of (n :: r) b = 0.
Proof. intros Hlt. unfold next_of. simpl. by rewrite Hlt. Qed.

Lemma next_of_back l b :
  Forall (λ i, lt b i = false) l → next_of l b = length l.
Proof. apply find_if_end. Qed.

Lemma next_of_middle l1 p n r b :
  Forall (λ i, lt b i = false) (l1 ++ [p]) → lt b n = true →
  next_of (l1 ++ p :: n :: r) b = S (length l1).
Proof.
  intros Hall Hlt. unfold next_of.
  replace (l1 ++ p :: n :: r) with ((l1 ++ [p]) ++ n :: r) by by rewrite <- app_assoc.
  rewrite find_if_app_false by done. simpl. rewrite Hlt, length_app. simpl. lia.
Qed.

Lemma flags_front n r b :
  lt b n = true →
  merge_prev_of (n :: r) b = is_contiguous_before n b ∧
  merge_next_of (n :: r) b = is_contiguous_before b n.
Proof.
  intros Hlt. unfold merge_prev_of, merge_next_of.
  by rewrite next_of_front.
Qed.

Lemma flags_back l1 p b :
  Forall (λ i, lt b i = false) (l1 ++ [p]) →
  merge_prev_of (l1 ++ [p]) b = is_contiguous_before p b ∧
  merge_next_of (l1 ++ [p]) b = false.
Proof.
  intros Hall. unfold merge_prev_of, merge_next_of, previous_of, begin, end_, deref.
  rewrite next_of_back by done. rewrite Nat.eqb_refl, length_app. simpl.
  replace (length l1 + 1 =? 0) with false by (symmetry; apply Nat.eqb_neq; lia).
  replace (Nat.pred (length l1 + 1)) with (length l1) by lia.
  by rewrite at_mid0.
Qed.

Lemma flags_middle l1 p n r b :
  Forall (λ i, lt b i = false) (l1 ++ [p]) → lt b n = true →
  merge_prev_of (l1 ++ p :: n :: r) b = is_contiguous_before p b ∧
  merge_next_of (l1 ++ p :: n :: r) b = is_contiguous_before b n.
Proof.
  intros Hall Hlt.
  unfold merge_prev_of, merge_next_of, previous_of, begin, end_, deref.
  rewrite next_of_middle by done.
  replace (S (length l1) =? length (l1 ++ p :: n :: r)) with false
    by (symmetry; apply Nat.eqb_neq; rewrite length_app; simpl; lia).
  replace (S (length l1) =? 0) with false by done.
  simpl. by rewrite at_mid0, at_mid1.
Qed.

(** The situations of [insert_shape] once more, now with the values of
    [merge_prev] and [merge_next] and with the impossible test of the first
    situation decided: a block that sorts before the first entry is never
    contiguous after it. *)
Lemma insert_cases l b :
  (l = [] ∧ insert l b = [b]) ∨
  (∃ n r, l = [] ++ [n] ++ r ∧ lt b n = true ∧
     merge_prev_of l b = false ∧
     merge_next_of l b = is_contiguous_before b n ∧
     insert l b =
       [] ++ (if is_contiguous_before b n then [merge b n] else [b; n]) ++ r) ∨
  (∃ l1 p, l = l1 ++ [p] ++ [] ∧ lt b p = false ∧
     merge_prev_of l b = is_contiguous_before p b ∧
     merge_next_of l b = false ∧
     insert l b =
       l1 ++ (if is_contiguous_before p b then [merge p b] else [p; b]) ++ []) ∨
  (∃ l1 p n r, l = l1 ++ [p; n] ++ r ∧ lt b p = false ∧ lt b n = true ∧
     merge_prev_of l b = is_contiguous_before p b ∧
     merge_next_of l b = is_contiguous_before b n ∧
     insert l b =
       l1 ++ (if is_contiguous_before p b && is_contiguous_before b n
              then [merge (merge p b) n]
              else if is_contiguous_before p b then [merge p b; n]
              else if is_contiguous_before b n then [p; merge b n]
              else [p; b; n]) ++ r).
Proof.
  unfold insert.
  destruct (find_if_split (lt b) l) as (l1 & l2 & -> & H1 & H2).
  destruct l1 as [|p l1 _] using rev_ind; [destruct l2 as [|n r]|destruct l2 as [|n r]].
  - by left.
  - right; left. exists n, r. simpl.
    destruct (flags_front n r b H2) as [-> ->].
    rewrite coalesced_emplace_front by done.
    assert (is_contiguous_before n b = false) as -> by block_facts.
    simpl. split_and!; try done. by destruct (is_contiguous_before b n).
  - right; right; left. exists l1, p.
    pose proof H1 as H1'. rewrite Forall_app, Forall_singleton in H1'. destruct H1' as [_ Hp].
    rewrite !app_nil_r. destruct (flags_back l1 p b H1) as [-> ->].
    by rewrite coalesced_emplace_back.
  - right; right; right. exists l1, p, n, r.
    pose proof H1 as H1'. rewrite Forall_app, Forall_singleton in H1'. destruct H1' as [_ Hp].
    rewrite <- app_assoc. simpl. destruct (flags_middle l1 p n r b H1 H2) as [-> ->].
    by rewrite coalesced_emplace_middle.
Qed.

Ltac insert_cases l b :=
  destruct (insert_cases l b) as
    [[-> ->]|[(n & r & -> & Hn & Hmp & Hmn & ->)|[(l1 & p & -> & Hp & Hmp & Hmn & ->)|
     (l1 & p & n & r & -> & Hp & Hn & Hmp & Hmn & ->)]]].

(** The tests that are known to hold or fail, as facts about addresses. *)
Ltac to_arith :=
  repeat match goal with
  | H : is_contiguous_before _ _ = true |- _ => apply N.eqb_eq in H
  | H : is_contiguous_before _ _ = false |- _ => apply N.eqb_neq in H
  | H : lt _ _ = true |- _ => apply N.ltb_lt in H
  | H : lt _ _ = false |- _ => apply N.ltb_ge in H
  | H : overlap _ _ = false |- _ => unfold overlap in H; apply andb_false_iff in H; 
                                    rewrite !N.ltb_ge in H
  end;
  unfold inside, gap, limit, merge in *; simpl in *.

(** Case analysis on the tests that appear in the goal. *)
Ltac split_tests :=
  repeat match goal with
  | |- context [is_contiguous_before ?a ?b] =>
      let H := fresh "Hc" in destruct (is_contiguous_before a b) eqn:H
  end; simpl.

(** *** What an insertion does to the bytes, the count and the order *)

Lemma total_size_app l1 l2 :
  total_size (l1 ++ l2) = (total_size l1 + total_size l2)%N.
Proof. induction l1 as [|e l1 IH]; simpl; [done|]. rewrite IH. lia. Qed.

Lemma insert_total_size_one l b :
  total_size (insert l b) = (total_size l + Block.size b)%N.
Proof.
  insert_cases l b; [simpl; lia|..]; split_tests;
    rewrite ?total_size_app; simpl; rewrite ?total_size_app; simpl; lia.
Qed.

(** X1.  An insertion neither loses nor invents free bytes: the sizes of
    the entries add up to what they added up to before plus the size of the
    inserted block, whichever neighbours are merged; the same holds for the
    insertion of a range. *)
Theorem insert_total_size :
  (∀ l b, total_size (insert l b) = (total_size l + Block.size b)%N) ∧
  (∀ range l,
     total_size (insert_range l range) = (total_size l + total_size range)%N).
Proof.
  split; [apply insert_total_size_one|].
  unfold insert_range. induction range as [|b range IH]; intros l; simpl.
  - lia.
  - rewrite IH, insert_total_size_one. lia.
Qed.

(** X2.  On a non-empty registry the number of entries after an insertion
    is the old number plus one, less one for each of the two merges that is
    made: it grows by one when no neighbour is contiguous, stays when one
    is, and shrinks by one when both are. *)
Theorem insert_size l b :
  l ≠ [] →
  free_list.size (insert l b)
    + count_if (merge_prev_of l b) + count_if (merge_next_of l b)
  = free_list.size l + 1.
Proof.
  intros Hne. unfold free_list.size.
  insert_cases l b; [done|..]; rewrite Hmp, Hmn; split_tests;
    rewrite ?length_app; simpl; rewrite ?length_app; simpl; lia.
Qed.

Lemma insert_size_witness :
  free_list.size (insert [mk 0 10; mk 20 10] (mk 10 10)) + 1 + 1
  = free_list.size [mk 0 10; mk 20 10] + 1.
Proof. by apply (insert_size [mk 0 10; mk 20 10] (mk 10 10)). Defined.

Lemma ordered_sandwich l1 mid r :
  address_ordered (l1 ++ mid ++ r) ↔
    address_ordered l1 ∧ address_ordered mid ∧ address_ordered r ∧
    Forall (λ x, Forall (λ y, (ptr x ≤ ptr y)%N) mid) l1 ∧
    Forall (λ z, Forall (λ y, (ptr y ≤ ptr z)%N) mid) r ∧
    Forall (λ x, Forall (λ z, (ptr x ≤ ptr z)%N) r) l1.
Proof.
  unfold address_ordered.
  rewrite !StronglySorted_app, !Forall_forall.
  setoid_rewrite Forall_forall. setoid_rewrite elem_of_app.
  split.
  - intros (Hx & Hs1 & Hy & Hsm & Hsr). split_and!; eauto.
  - intros (Hs1 & Hsm & Hsr & Hlm & Hmr & Hlr).
    split_and!; eauto. intros x1 x2 Hx1 [Hx2|Hx2]; eauto.
Qed.

Lemma ordered_replace l1 mid mid' r :
  address_ordered (l1 ++ mid ++ r) →
  address_ordered mid' →
  (∀ x, x ∈ l1 →
        Forall (λ y, (ptr x ≤ ptr y)%N) mid → Forall (λ y, (ptr x ≤ ptr y)%N) mid') →
  (∀ z, z ∈ r →
        Forall (λ y, (ptr y ≤ ptr z)%N) mid → Forall (λ y, (ptr y ≤ ptr z)%N) mid') →
  address_ordered (l1 ++ mid' ++ r).
Proof.
  rewrite !ordered_sandwich. intros (H1 & _ & Hr & Hl & Hm & Hlr) Hmid' Hx Hz.
  split_and!; try done.
  - rewrite Forall_forall in Hl |- *. auto.
  - rewrite Forall_forall in Hm |- *. auto.
Qed.

Ltac solve_order :=
  intros; unfold address_ordered in *;
  repeat match goal with
  | H : Forall _ (_ :: _) |- _ => apply Forall_cons in H as [? H]
  | H : Forall _ [] |- _ => clear H
  | H : _ ∈ [] |- _ => by apply not_elem_of_nil in H
  end;
  repeat first
    [ apply Forall_nil_2 | apply Forall_cons_2
    | apply SSorted_nil | apply SSorted_cons ];
  simpl; lia.

(** X3.  An insertion keeps the entries in ascending address order,
    whatever the sizes of the blocks are and whether or not they overlap. *)
Theorem insert_address_ordered l b :
  address_ordered l → address_ordered (insert l b).
Proof.
  intros Hl.
  insert_cases l b; [solve_order|..]; to_arith; split_tests.
  - apply (ordered_replace [] [n] [merge b n] r Hl); solve_order.
  - apply (ordered_replace [] [n] [b; n] r Hl); solve_order.
  - apply (ordered_replace l1 [p] [merge p b] [] Hl); solve_order.
  - apply (ordered_replace l1 [p] [p; b] [] Hl); solve_order.
  - apply (ordered_replace l1 [p; n] [merge (merge p b) n] r Hl); solve_order.
  - apply (ordered_replace l1 [p; n] [merge p b; n] r Hl); solve_order.
  - apply (ordered_replace l1 [p; n] [p; merge b n] r Hl); solve_order.
  - apply (ordered_replace l1 [p; n] [p; b; n] r Hl); solve_order.
Qed.

Lemma insert_address_ordered_witness :
  address_ordered (insert [mk 0 30; mk 10 5; mk 10 0] (mk 10 2)).
Proof.
  apply (insert_address_ordered [mk 0 30; mk 10 5; mk 10 0] (mk 10 2)).
  unfold address_ordered. repeat constructor; simpl; lia.
Defined.

(** *** The addresses a registry covers *)

Lemma covered_nil x : covered x [] ↔ False.
Proof. unfold covered. by rewrite Exists_nil. Qed.

Lemma covered_cons x e l : covered x (e :: l) ↔ inside x e ∨ covered x l.
Proof. unfold covered. by rewrite Exists_cons. Qed.

Lemma covered_app x l1 l2 : covered x (l1 ++ l2) ↔ covered x l1 ∨ covered x l2.
Proof. unfold covered. by rewrite Exists_app. Qed.

Ltac open_covered :=
  simpl;
  repeat first [ rewrite covered_app | rewrite covered_cons | rewrite covered_nil ].

Lemma insert_covered_one l b x :
  covered x (insert l b) ↔ inside x b ∨ covered x l.
Proof.
  insert_cases l b; split_tests; open_covered; to_arith; intuition lia.
Qed.

Lemma insert_range_covered range : ∀ l x,
  covered x (insert_range l range) ↔ covered x l ∨ covered x range.
Proof.
  unfold insert_range. induction range as [|b range IH]; intros l x; simpl.
  - rewrite covered_nil. tauto.
  - rewrite IH, insert_covered_one, covered_cons. tauto.
Qed.

(** X4.  The addresses covered by the registry after an insertion are
    exactly those of the inserted block together with those covered before:
    merging changes how the free bytes are cut into entries, never which
    bytes are free.  The same holds for the insertion of a range. *)
Theorem insert_covered :
  (∀ l b x, covered x (insert l b) ↔ inside x b ∨ covered x l) ∧
  (∀ range l x, covered x (insert_range l range) ↔ covered x l ∨ covered x range).
Proof.
  split; [apply insert_covered_one|apply insert_range_covered].
Qed.

(** X5.  An insertion removes or changes no entry other than a neighbour
    it merges with: every entry that is not contiguous with the inserted
    block, on either side, is still an entry afterwards. *)
Theorem insert_keeps_other_entries l b e :
  e ∈ l →
  is_contiguous_before e b = false →
  is_contiguous_before b e = false →
  e ∈ insert l b.
Proof.
  intros He Heb Hbe.
  insert_cases l b; [by apply not_elem_of_nil in He|..]; simpl in He;
    repeat (rewrite elem_of_app in He || rewrite elem_of_cons in He);
    rewrite ?elem_of_nil in He; split_tests;
    repeat (rewrite elem_of_app || rewrite elem_of_cons);
    intuition (subst; try congruence; auto).
Qed.

Lemma insert_keeps_other_entries_witness :
  mk 40 5 ∈ insert [mk 0 10; mk 20 10; mk 40 5] (mk 10 10).
Proof.
  apply insert_keeps_other_entries; [|reflexivity|reflexivity].
  apply elem_of_cons; right. apply elem_of_cons; right. apply elem_of_cons; by left.
Defined.

(** *** A coalesced registry is determined by the addresses it covers *)

Lemma coalesced_cons a l :
  coalesced (a :: l) ↔ (0 < Block.size a)%N ∧ Forall (gap a) l ∧ coalesced l.
Proof.
  unfold coalesced. rewrite Forall_cons, StronglySorted_cons. tauto.
Qed.

Lemma covered_after a l x : Forall (gap a) l → covered x l → (limit a < x)%N.
Proof.
  unfold covered. rewrite Forall_forall, Exists_exists.
  intros Hgap (e & He & Hx). specialize (Hgap e He).
  unfold gap, inside, limit in *. lia.
Qed.

Lemma covered_head a l : (0 < Block.size a)%N → covered (ptr a) (a :: l).
Proof. intros Ha. apply covered_cons. left. unfold inside, limit. lia. Qed.

Lemma covered_from_head a l x :
  coalesced (a :: l) → covered x (a :: l) → (ptr a ≤ x)%N.
Proof.
  intros (Ha & Hgap & _)%coalesced_cons [Hx|Hx]%covered_cons.
  - unfold inside in Hx. lia.
  - pose proof (covered_after a l x Hgap Hx). unfold limit in *. lia.
Qed.

Lemma coalesced_unique : ∀ l1 l2,
  coalesced l1 → coalesced l2 →
  (∀ x, covered x l1 ↔ covered x l2) →
  l1 = l2.
Proof.
  induction l1 as [|a l1 IH]; intros [|c l2] H1 H2 Hsame.
  - done.
  - apply coalesced_cons in H2 as (Hc & _ & _).
    by apply (covered_head c l2), Hsame, covered_nil in Hc.
  - apply coalesced_cons in H1 as (Ha & _ & _).
    by apply (covered_head a l1), Hsame, covered_nil in Ha.
  - pose proof H1 as (Ha & Hga & Hl1)%coalesced_cons.
    pose proof H2 as (Hc & Hgc & Hl2)%coalesced_cons.
    assert (ptr a = ptr c) as Hptr.
    { pose proof (covered_from_head c l2 (ptr a) H2
                    (proj1 (Hsame _) (covered_head a l1 Ha))).
      pose proof (covered_from_head a l1 (ptr c) H1
                    (proj2 (Hsame _) (covered_head c l2 Hc))).
      lia. }
    assert (limit a = limit c) as Hlim.
    { destruct (N.lt_trichotomy (limit a) (limit c)) as [Hlt|[Heq|Hlt]]; [|done|].
      - assert (covered (limit a) (c :: l2)) as Hx
          by (apply covered_cons; left; unfold inside, limit in *; lia).
        apply Hsame, covered_cons in Hx as [Hx|Hx].
        + unfold inside in Hx. lia.
        + pose proof (covered_after a l1 _ Hga Hx). lia.
      - assert (covered (limit c) (a :: l1)) as Hx
          by (apply covered_cons; left; unfold inside, limit in *; lia).
        apply Hsame, covered_cons in Hx as [Hx|Hx].
        + unfold inside in Hx. lia.
        + pose proof (covered_after c l2 _ Hgc Hx). lia. }
    assert (a = c) as <-.
    { destruct a as [pa sa], c as [pc sc]. unfold limit in Hlim. simpl in *.
      f_equal; lia. }
    f_equal. apply IH; [done|done|].
    intros x. split; intros Hx.
    + assert (covered x (a :: l2)) as [Hin|Hin]%covered_cons
        by (apply Hsame, covered_cons; by right); [|done].
      pose proof (covered_after a l1 x Hga Hx). unfold inside in Hin. lia.
    + assert (covered x (a :: l1)) as [Hin|Hin]%covered_cons
        by (apply Hsame, covered_cons; by right); [|done].
      pose proof (covered_after a l2 x Hgc Hx). unfold inside in Hin. lia.
Qed.

Lemma insert_range_nil_coalesced range :
  all_positive range = true → mutually_non_overlapping range = true →
  coalesced (insert_range [] range).
Proof.
  intros Hpos Hmno. apply insert_range_coalesced; [apply coalesced_nil|done|done|].
  apply Forall_forall. intros c _. constructor.
Qed.

Lemma all_positive_perm r1 r2 :
  r1 ≡ₚ r2 → all_positive r1 = true → all_positive r2 = true.
Proof.
  unfold all_positive. rewrite !forallb_Forall. by intros ->.
Qed.

Lemma mutually_non_overlapping_perm r1 r2 :
  r1 ≡ₚ r2 →
  mutually_non_overlapping r1 = true → mutually_non_overlapping r2 = true.
Proof.
  induction 1 as [|x l l' Hperm IH|x y l|l l' l'' _ IH1 _ IH2]; simpl.
  - done.
  - rewrite !andb_true_iff, !forallb_Forall. intros [Hx Hl].
    split; [by rewrite <- Hperm|auto].
  - rewrite (overlap_sym x y), !andb_true_iff. tauto.
  - auto.
Qed.

(** X6.  What a sequence of insertions leaves depends only on the
    addresses inserted: two sequences of non-overlapping blocks of positive
    size that cover the same addresses leave the same registry, however
    the bytes were cut into blocks; in particular the order of the
    insertions does not matter. *)
Theorem insert_range_determined_by_addresses :
  (∀ r1 r2,
     all_positive r1 = true → mutually_non_overlapping r1 = true →
     all_positive r2 = true → mutually_non_overlapping r2 = true →
     (∀ x, covered x r1 ↔ covered x r2) →
     insert_range [] r1 = insert_range [] r2) ∧
  (∀ r1 r2,
     all_positive r1 = true → mutually_non_overlapping r1 = true →
     r1 ≡ₚ r2 →
     insert_range [] r1 = insert_range [] r2).
Proof.
  assert (∀ r1 r2,
     all_positive r1 = true → mutually_non_overlapping r1 = true →
     all_positive r2 = true → mutually_non_overlapping r2 = true →
     (∀ x, covered x r1 ↔ covered x r2) →
     insert_range [] r1 = insert_range [] r2) as Hmain.
  { intros r1 r2 Hp1 Hm1 Hp2 Hm2 Hsame.
    apply coalesced_unique; [by apply insert_range_nil_coalesced..|].
    intros x. rewrite !insert_range_covered, !covered_nil, Hsame. tauto. }
  split; [exact Hmain|].
  intros r1 r2 Hp Hm Hperm. apply Hmain; try done.
  - by apply (all_positive_perm r1).
  - by apply (mutually_non_overlapping_perm r1).
  - intros x. unfold covered. by rewrite Hperm.
Qed.

Lemma insert_range_determined_by_addresses_witness :
  insert_range [] [mk 30 2; mk 0 10; mk 20 10; mk 10 10]
  = insert_range [] [mk 0 16; mk 16 16].
Proof.
  apply (proj1 insert_range_determined_by_addresses); try reflexivity.
  intros x. unfold covered. rewrite !Exists_cons, !Exists_nil.
  unfold inside, limit. simpl. lia.
Defined.

(** *** Removing an entry and giving it back *)

Lemma delete_cases (l : list_t) i :
  delete i l = l ∨
  ∃ l1 e r, l = l1 ++ [e] ++ r ∧ l !! i = Some e ∧ delete i l = l1 ++ [] ++ r.
Proof.
  destruct (l !! i) as [e|] eqn:Hi.
  - right. exists (take i l), e, (drop (S i) l). split_and!.
    + symmetry. by apply take_drop_middle.
    + done.
    + apply delete_take_drop.
  - left. apply lookup_ge_None in Hi.
    rewrite delete_take_drop, take_ge, drop_ge by lia. by rewrite app_nil_r.
Qed.

Lemma coalesced_delete l i : coalesced l → coalesced (delete i l).
Proof.
  intros Hl. destruct (delete_cases l i) as [->|(l1 & e & r & -> & _ & ->)]; [done|].
  apply (coalesced_replace l1 [e] [] r Hl); solve_run.
Qed.

Lemma ordered_delete l i : address_ordered l → address_ordered (delete i l).
Proof.
  intros Hl. destruct (delete_cases l i) as [->|(l1 & e & r & -> & _ & ->)]; [done|].
  apply (ordered_replace l1 [e] [] r Hl); solve_order.
Qed.

(** X7.  In a coalesced registry, erasing an entry and inserting the same
    block again gives the registry back, entry for entry; so does inserting
    the block that [best_fit] has just taken out. *)
Theorem erase_then_insert :
  (∀ l i e,
     coalesced l → l !! i = Some e → insert (erase i l) e = l) ∧
  (∀ l sz,
     coalesced l → Exists (λ e, fits e sz = true) l →
     insert (best_fit l sz).2 (best_fit l sz).1 = l).
Proof.
  assert (∀ l i e,
     coalesced l → l !! i = Some e → insert (erase i l) e = l) as Hmain.
  { intros l i e Hl Hi. unfold erase.
    pose proof (coalesced_delete l i Hl) as Hdel.
    destruct (delete_cases l i) as [Heq|(l1 & e' & r & -> & Hi' & Hd)].
    { pose proof (length_delete l i (mk_is_Some _ _ Hi)) as Hlen.
      pose proof (lookup_lt_Some _ _ _ Hi). rewrite Heq in Hlen. lia. }
    assert (e' = e) as -> by congruence. rewrite Hd in *.
    pose proof Hl as (H1 & He & Hr & Hl1e & Hre & _)%coalesced_sandwich.
    apply coalesced_unique; [|done|].
    - apply insert_coalesced; [done|by apply coalesced_cons in He as (? & _)|].
      simpl. apply Forall_app. split.
      + eapply Forall_impl; [exact Hl1e|]. intros c Hc. cbv beta in Hc. solve_run.
      + eapply Forall_impl; [exact Hre|]. intros c Hc. cbv beta in Hc. solve_run.
    - intros x. rewrite insert_covered_one. open_covered. tauto. }
  split; [exact Hmain|].
  intros l sz Hl (e & He & Hfit)%Exists_exists.
  assert (l ≠ []) as Hne by (intros ->; by apply not_elem_of_nil in He).
  destruct (min_element_best sz l Hne) as (w & Hw & Hmin).
  destruct (Hmin e He Hfit) as [Hwfit _].
  rewrite (best_fit_found l sz _ w Hw Hwfit eq_refl). simpl.
  by apply Hmain.
Qed.

Lemma erase_then_insert_witness :
  insert (erase 1 [mk 0 10; mk 20 10; mk 40 5]) (mk 20 10)
  = [mk 0 10; mk 20 10; mk 40 5].
Proof.
  apply (proj1 erase_then_insert); [|reflexivity].
  split; repeat constructor; unfold gap, limit; simpl; lia.
Defined.

(** X8.  [best_fit] keeps the registry in shape, whether or not it finds a
    block: a coalesced registry stays coalesced and a registry in ascending
    address order stays in ascending address order. *)
Theorem best_fit_keeps_shape l sz :
  (coalesced l → coalesced (best_fit l sz).2) ∧
  (address_ordered l → address_ordered (best_fit l sz).2).
Proof.
  assert ((best_fit l sz).2 = l ∨ ∃ i, (best_fit l sz).2 = delete i l) as [->|[i ->]].
  { unfold best_fit, erase. 
    destruct (negb _ && fits _ sz); simpl; [right; by eexists|by left]. }
  - done.
  - split; [apply coalesced_delete|apply ordered_delete].
Qed.

Lemma best_fit_keeps_shape_witness :
  coalesced (best_fit [mk 0 100; mk 1000 50; mk 2000 200] 60).2.
Proof.
  apply (proj1 (best_fit_keeps_shape [mk 0 100; mk 1000 50; mk 2000 200] 60)).
  split; repeat constructor; unfold gap, limit; simpl; lia.
Defined.

(** *** Which of several equally good blocks [best_fit] takes *)

Lemma min_element_loop_first sz : ∀ rest pre k v,
  (pre ++ rest) !! k = Some v →
  k < length pre →
  (∀ e, e ∈ pre → fits e sz = true →
        fits v sz = true ∧ (Block.size v ≤ Block.size e)%N) →
  (∀ j e, j < k → pre !! j = Some e → fits e sz = true →
          (Block.size v < Block.size e)%N) →
  ∃ w,
    (pre ++ rest) !! min_element_loop (λ lhs rhs, is_better_fit lhs sz rhs)
                       rest (length pre) k v = Some w ∧
    (∀ j e, j < min_element_loop (λ lhs rhs, is_better_fit lhs sz rhs)
                  rest (length pre) k v →
            (pre ++ rest) !! j = Some e → fits e sz = true →
            (Block.size w < Block.size e)%N).
Proof.
  induction rest as [|x rest IH]; intros pre k v Hk Hlt Hmin Hfirst; simpl.
  - exists v. rewrite app_nil_r in *. eauto.
  - replace (pre ++ x :: rest) with ((pre ++ [x]) ++ rest) in * by by rewrite <- app_assoc.
    replace (S (length pre)) with (length (pre ++ [x])) by (rewrite length_app; simpl; lia).
    assert (length pre < length (pre ++ [x])) as Hlen by (rewrite length_app; simpl; lia).
    destruct (is_better_fit x sz v) eqn:Hcmp.
    + apply IH.
      * rewrite <- app_assoc. simpl. by apply list_lookup_middle.
      * done.
      * intros e [He| ->%list_elem_of_singleton]%elem_of_app Hfit.
        -- destruct (Hmin e He Hfit). block_facts.
        -- block_facts.
      * intros j e Hj He Hfit. rewrite lookup_app_l in He by done.
        destruct (Hmin e (list_elem_of_lookup_2 _ _ _ He) Hfit). block_facts.
    + apply IH.
      * done.
      * lia.
      * intros e [He| ->%list_elem_of_singleton]%elem_of_app Hfit; [by apply Hmin|].
        block_facts.
      * intros j e Hj He Hfit. rewrite lookup_app_l in He by lia. eauto.
Qed.

(** X9.  Among the entries that fit, [best_fit] takes the first one of
    least size: every entry before the one it returns either does not fit
    or is strictly larger.  In a registry in address order this is the
    candidate at the lowest address. *)
Theorem best_fit_takes_first_smallest (l : list_t) sz :
  Exists (λ e, fits e sz = true) l →
  ∃ iter found,
    best_fit l sz = (found, delete iter l) ∧
    l !! iter = Some found ∧
    (∀ j e, j < iter → l !! j = Some e → fits e sz = true →
            (Block.size found < Block.size e)%N) ∧
    (∀ j e, l !! j = Some e → fits e sz = true →
            (Block.size found ≤ Block.size e)%N).
Proof.
  intros (e & He & Hfit)%Exists_exists.
  assert (l ≠ []) as Hne by (intros ->; by apply not_elem_of_nil in He).
  destruct (min_element_best sz l Hne) as (w & Hw & Hmin).
  destruct (Hmin e He Hfit) as [Hwfit _].
  destruct l as [|x rest]; [done|].
  destruct (min_element_loop_first sz rest [x] 0 x) as (w' & Hw' & Hfirst).
  - done.
  - simpl. lia.
  - intros e' ->%list_elem_of_singleton Hf. split; [done|lia].
  - intros j e' Hj. lia.
  - assert (w' = w) as -> by (unfold min_element in Hw; simpl in *; congruence).
    eexists _, w. split_and!.
    + by apply best_fit_found.
    + done.
    + exact Hfirst.
    + intros j e' He' Hfit'. by apply Hmin; [eapply list_elem_of_lookup_2|].
Qed.

Lemma best_fit_takes_first_smallest_witness :
  ∃ iter found,
    best_fit [mk 0 200; mk 1000 100; mk 2000 50; mk 3000 100] 60
      = (found, delete iter [mk 0 200; mk 1000 100; mk 2000 50; mk 3000 100]) ∧
    [mk 0 200; mk 1000 100; mk 2000 50; mk 3000 100] !! iter = Some found.
Proof.
  destruct (best_fit_takes_first_smallest
              [mk 0 200; mk 1000 100; mk 2000 50; mk 3000 100] 60)
    as (iter & found & H1 & H2 & _).
  - apply Exists_cons_hd. reflexivity.
  - by exists iter, found.
Defined.

(** *** Splitting an entry and giving both parts back *)

Lemma part_of_entry_clear l1 e r c :
  Forall (λ x, Forall (gap x) [e]) l1 →
  Forall (λ z, Forall (λ y, gap y z) [e]) r →
  (ptr e ≤ ptr c)%N → (limit c ≤ limit e)%N →
  Forall (λ d, overlap c d = false) (l1 ++ r).
Proof.
  intros Hl1 Hr Hlo Hhi. apply Forall_app. split.
  - eapply Forall_impl; [exact Hl1|]. intros d Hd. cbv beta in Hd. solve_run.
  - eapply Forall_impl; [exact Hr|]. intros d Hd. cbv beta in Hd. solve_run.
Qed.

(** X10.  Cutting an entry of a coalesced registry in two non-empty parts
    and inserting both parts, in either order, into the registry without
    that entry gives the registry back: the parts are merged into the one
    entry they came from and no other entry changes. *)
Theorem split_then_insert l i e x y :
  coalesced l →
  l !! i = Some e →
  Block.size e = (x + y)%N → (0 < x)%N → (0 < y)%N →
  insert (insert (erase i l) (mk (ptr e + x) y)) (mk (ptr e) x) = l ∧
  insert (insert (erase i l) (mk (ptr e) x)) (mk (ptr e + x) y) = l.
Proof.
  intros Hl Hi Hsize Hx Hy. unfold erase.
  destruct (delete_cases l i) as [Heq|(l1 & e' & r & -> & Hi' & Hd)].
  { pose proof (length_delete l i (mk_is_Some _ _ Hi)) as Hlen.
    pose proof (lookup_lt_Some _ _ _ Hi). rewrite Heq in Hlen. lia. }
  assert (e' = e) as -> by congruence.
  pose proof (coalesced_delete _ i Hl) as Hdel. rewrite Hd in *. simpl in Hdel |- *.
  pose proof Hl as (_ & _ & _ & Hl1e & Hre & _)%coalesced_sandwich.
  assert (Forall (λ d, overlap (mk (ptr e) x) d = false) (l1 ++ r)) as Hpre
    by (apply (part_of_entry_clear l1 e r); [done|done|simpl; lia|unfold limit; simpl; lia]).
  assert (Forall (λ d, overlap (mk (ptr e + x) y) d = false) (l1 ++ r)) as Hrem
    by (apply (part_of_entry_clear l1 e r); [done|done|simpl; lia|unfold limit; simpl; lia]).
  assert (∀ z, covered z (l1 ++ [e] ++ r) ↔
               inside z (mk (ptr e) x) ∨ inside z (mk (ptr e + x) y) ∨ covered z (l1 ++ r))
    as Hcov.
  { intros z. open_covered. unfold inside, limit. simpl. intuition lia. }
  split; (apply coalesced_unique; [|done|]).
  - apply insert_coalesced; [by apply insert_coalesced|done|].
    apply insert_keeps_clear; [done| |done].
    unfold overlap, limit. simpl. apply andb_false_iff. rewrite !N.ltb_ge. lia.
  - intros z. rewrite !insert_covered_one, Hcov. tauto.
  - apply insert_coalesced; [by apply insert_coalesced|done|].
    apply insert_keeps_clear; [done| |done].
    unfold overlap, limit. simpl. apply andb_false_iff. rewrite !N.ltb_ge. lia.
  - intros z. rewrite !insert_covered_one, Hcov. tauto.
Qed.

Lemma split_then_insert_witness :
  insert (insert (erase 1 [mk 0 10; mk 20 10; mk 40 5]) (mk (20 + 4) 6)) (mk 20 4)
  = [mk 0 10; mk 20 10; mk 40 5].
Proof.
  apply (split_then_insert [mk 0 10; mk 20 10; mk 40 5] 1 (mk 20 10) 4 6);
    try reflexivity.
  split; repeat constructor; unfold gap, limit; simpl; lia.
Defined.

(** *** The invariant across one insertion *)

Lemma coalesced_ordered l : coalesced l → address_ordered l.
Proof.
  intros [Hpos Hs]. unfold address_ordered.
  induction Hs as [|a l Hs IH Hall]; [constructor|].
  apply Forall_cons in Hpos as [_ Hpos].
  constructor; [auto|].
  eapply Forall_impl; [exact Hall|]. intros c Hc. unfold gap, limit in Hc. lia.
Qed.

Lemma coalesced_no_overlap l i j a c :
  coalesced l → i ≠ j → l !! i = Some a → l !! j = Some c → overlap a c = false.
Proof.
  intros Hl Hij Hi Hj.
  pose proof (coalesced_positive _ _ _ Hl Hi).
  pose proof (coalesced_positive _ _ _ Hl Hj).
  unfold overlap. apply andb_false_iff. rewrite !N.ltb_ge.
  destruct (decide (i < j)) as [Hlt|Hge].
  - pose proof (coalesced_lookup_gap _ _ _ _ _ Hl Hlt Hi Hj) as Hg.
    unfold gap, limit in *. lia.
  - assert (j < i) as Hlt by lia.
    pose proof (coalesced_lookup_gap _ _ _ _ _ Hl Hlt Hj Hi) as Hg.
    unfold gap, limit in *. lia.
Qed.

(** X11.  A registry of non-empty entries, in ascending address order with
    a gap between any two of them, is in that state again after inserting
    a non-empty block that overlaps none of its entries; in this state no
    two entries are contiguous and no two entries overlap. *)
Theorem insert_keeps_registry_coalesced l b :
  coalesced l →
  (0 < Block.size b)%N →
  Forall (λ e, overlap b e = false) l →
  coalesced (insert l b) ∧
  address_ordered (insert l b) ∧
  no_contiguous_entries (insert l b) ∧
  (∀ i j a c, i ≠ j → insert l b !! i = Some a → insert l b !! j = Some c →
              overlap a c = false).
Proof.
  intros Hl Hb Hclear.
  pose proof (insert_coalesced l b Hl Hb Hclear) as Hins.
  split_and!.
  - done.
  - by apply coalesced_ordered.
  - by apply coalesced_no_contiguous.
  - intros i j a c. by apply coalesced_no_overlap.
Qed.

Lemma insert_keeps_registry_coalesced_witness :
  coalesced (insert [mk 0 10; mk 20 10; mk 40 5] (mk 10 10)).
Proof.
  apply (insert_keeps_registry_coalesced [mk 0 10; mk 20 10; mk 40 5] (mk 10 10)).
  - split; repeat constructor; unfold gap, limit; simpl; lia.
  - reflexivity.
  - repeat constructor.
Defined.

End free_list_theory.

(* ===================================================================== *)
(** * Properties of the manager *)
(* ===================================================================== *)

Module manager_theory.
Import api ios Manager manager_spec.

(** ** Bits of an integer *)

Lemma nonzero_has_bit (d : Z) : d ≠ 0%Z → ∃ n, (0 ≤ n)%Z ∧ Z.testbit d n = true.
Proof.
  intros Hd. destruct (Z.lt_trichotomy d 0) as [Hneg|[->|Hpos]]; [|done|].
  - exists (Z.abs d). split; [lia|].
    apply Z.bits_iff_neg; [|done].
    apply Z.log2_lt_lin. lia.
  - exists (Z.log2 d). split; [apply Z.log2_nonneg|by apply Z.bit_log2].
Qed.

Lemma to_bool_land (mode flag : Z) :
  to_bool (Z.land mode flag) = true ↔ bitmask_test mode flag.
Proof.
  unfold to_bool, bitmask_test. rewrite negb_true_iff, Z.eqb_neq. split.
  - intros (n & Hn & Hbit)%nonzero_has_bit.
    rewrite Z.land_spec, andb_true_iff in Hbit. by exists n.
  - intros (n & Hn & H1 & H2) Hzero.
    assert (Z.testbit (Z.land mode flag) n = true) as Hbit
      by by rewrite Z.land_spec, H1, H2.
    by rewrite Hzero, Z.bits_0 in Hbit.
Qed.

Section with_externals.
Context `{!externals Logger.t}.

(** C4.  [finalize] leaves the set of registered streams empty and the
    logger cleared (no records, no live pointers), keeps the options as
    they were, and returns the same instance: a following [rmmInitialize]
    installs its options in it and finds streams and logger cleared. *)
Theorem finalize_clears_context (m : Manager.t) :
  registered_streams (finalize m) = ∅ ∧
  logger (finalize m) = Logger.clear (logger m) ∧
  Logger.events (logger (finalize m)) = [] ∧
  Logger.current_allocations (logger (finalize m)) = ∅ ∧
  options (finalize m) = options m ∧
  (∀ rt opts,
     rmm.manager (rmm.rmmInitialize rt (Some opts) (finalize m)) =
       mk ∅ (Logger.clear (logger m)) opts) ∧
  (∀ rt,
     rmm.manager (rmm.rmmInitialize rt None (finalize m)) =
       mk ∅ (Logger.clear (logger m)) (options m)).
Proof.
  split_and!; try done; intros; unfold rmm.rmmInitialize;
    repeat match goal with
    | |- context [if ?c then _ else _] => destruct c
    | |- context [let '(_, _) := ?p in _] => destruct p
    | |- context [match ?o with Some _ => _ | None => _ end] => destruct o
    end; done.
Qed.

(** C5 (as amended).  The pool query and the managed-memory query return
    true exactly when the configured mode and the respective flag have a
    set bit in common; the default-allocator query returns true exactly
    when the configured mode equals the default-allocation value. *)
Theorem mode_queries (m : Manager.t) :
  (usePoolAllocator m = true ↔
     bitmask_test (allocation_mode (options m)) PoolAllocation) ∧
  (useManagedMemory m = true ↔
     bitmask_test (allocation_mode (options m)) CudaManagedMemory) ∧
  (useCudaDefaultAllocator m = true ↔
     allocation_mode (options m) = CudaDefaultAllocation).
Proof.
  unfold usePoolAllocator, useManagedMemory, useCudaDefaultAllocator, getOptions.
  rewrite !to_bool_land, Z.eqb_eq. split_and!; try done.
Qed.

End with_externals.

(** Whatever value the default-allocation enumerator has, the
    default-allocator query differs from the bitmask comparison at some
    configured mode. *)
Lemma default_query_is_not_a_bitmask_test :
  ¬ ∃ E : externals Logger.t, ∀ m : Manager.t,
      useCudaDefaultAllocator m = true ↔
      bitmask_test (allocation_mode (options m)) CudaDefaultAllocation.
Proof.
  intros [E HE].
  set (at_mode := λ mode : Z, mk ∅ (Logger.mk ∅ 0 []) (mk_options mode 0 false)).
  destruct (decide (CudaDefaultAllocation = 0%Z)) as [Hd|Hd].
  - destruct (proj1 (HE (at_mode 0%Z))) as (n & _ & Hbit & _).
    + unfold useCudaDefaultAllocator. simpl. by rewrite Hd.
    + simpl in Hbit. by rewrite Z.bits_0 in Hbit.
  - destruct (nonzero_has_bit _ Hd) as (n & Hn & Hbit).
    destruct (decide (CudaDefaultAllocation = (-1)%Z)) as [Hm|Hm].
    + assert (useCudaDefaultAllocator (at_mode 1%Z) = true) as Hq.
      { apply HE. exists 0%Z. simpl. by rewrite Hm. }
      unfold useCudaDefaultAllocator in Hq. simpl in Hq.
      apply Z.eqb_eq in Hq. lia.
    + assert (useCudaDefaultAllocator (at_mode (-1)%Z) = true) as Hq.
      { apply HE. exists n. simpl. by rewrite Z.bits_m1. }
      unfold useCudaDefaultAllocator in Hq. simpl in Hq.
      apply Z.eqb_eq in Hq. lia.
Qed.

End manager_theory.

(* ===================================================================== *)
(** * Properties of the entry points *)
(* ===================================================================== *)

Module rmm_theory.
Import api ios Manager rmm manager_spec samples.

Section with_externals.
Context `{!externals Logger.t}.

(** ** Streams with the default exception mask *)

Lemma to_csv_ostringstream (l : Logger.t) :
  Logger.to_csv l ostringstream =
    returns (mk_ostream (csv_text l) (λ _, true) false false).
Proof. reflexivity. Qed.

(** ** [rmmInitialize] *)

(** C9.  Called with the null pointer, [rmmInitialize] leaves the manager,
    and so its options, as they were, and goes on exactly as a call that
    passes the stored options: without pool allocation it calls nothing and
    succeeds; with pool allocation it asks for the device and, unless that
    fails, calls [cnmemInit] with the stored initial pool size and with the
    managed flag chosen by the stored mode. *)
Theorem rmmInitialize_null_options (rt : runtime) (m : Manager.t) :
  manager (rmmInitialize rt None m) = m ∧
  getOptions (manager (rmmInitialize rt None m)) = getOptions m ∧
  rmmInitialize rt None m = rmmInitialize rt (Some (getOptions m)) m ∧
  (usePoolAllocator m = false →
     calls (rmmInitialize rt None m) = [] ∧
     status (rmmInitialize rt None m) = RMM_SUCCESS) ∧
  (usePoolAllocator m = true →
     RMM_CHECK_CUDA (cudaGetDevice rt).1 = None →
     calls (rmmInitialize rt None m) =
       [call_cudaGetDevice;
        call_cnmemInit 1
          (mk_device (cudaGetDevice rt).2 (initial_pool_size (getOptions m)) 1 [0%N] 0)
          (if useManagedMemory m then CNMEM_FLAGS_MANAGED else 0%Z)]) ∧
  (usePoolAllocator m = true →
     ∀ e, RMM_CHECK_CUDA (cudaGetDevice rt).1 = Some e →
     calls (rmmInitialize rt None m) = [call_cudaGetDevice] ∧
     status (rmmInitialize rt None m) = e).
Proof.
  assert (setOptions (getOptions m) m = m) as Hsame by by destruct m.
  unfold rmmInitialize. rewrite Hsame.
  destruct (usePoolAllocator m) eqn:Hpool; destruct (cudaGetDevice rt) as [err dev];
    simpl; destruct (RMM_CHECK_CUDA err) eqn:Herr; simpl;
    repeat match goal with
    | |- context [RMM_CHECK_CNMEM ?c] => destruct (RMM_CHECK_CNMEM c)
    end; simpl; split_and!; try done; try congruence.
  intros _ e' [= <-]. done.
Qed.

(** ** [rmmWriteLog] *)

(** C6.  What [rmmWriteLog] does for every file system, log and path: the
    stream it writes to keeps the default exception mask, so no failure is
    thrown, the handler is never entered and the status is [RMM_SUCCESS];
    when the file cannot be opened, or does not take the text, the stream
    is left in its error state with nothing written. *)
Theorem rmmWriteLog_reports_success (fs : file_system) (m : Manager.t) (filename : string) :
  rmmWriteLog fs m filename = RMM_SUCCESS ∧
  ∃ csv,
    rmmWriteLog_try fs m filename = returns csv ∧
    failed csv =
      negb (can_open fs filename && accepts fs filename (csv_text (getLogger m))) ∧
    str csv =
      if can_open fs filename && accepts fs filename (csv_text (getLogger m))
      then csv_text (getLogger m) else [].
Proof.
  unfold rmmWriteLog, rmmWriteLog_try, open, Logger.to_csv, put, setstate, ofstream.
  destruct (can_open fs filename); simpl.
  - destruct (accepts fs filename (csv_text (getLogger m))); simpl; eauto.
  - eauto.
Qed.

(** ** [rmmLogSize] and [rmmGetLog] *)

Lemma rmmGetLog_eq (m : Manager.t) (buffer : list ascii) (buffer_size : nat) :
  rmmGetLog m buffer buffer_size =
    (RMM_SUCCESS,
     take (Nat.min buffer_size (length (csv_text (getLogger m))))
          (csv_text (getLogger m)) ++
     drop (Nat.min buffer_size (length (csv_text (getLogger m)))) buffer).
Proof.
  unfold rmmGetLog, rmmGetLog_try. rewrite to_csv_ostringstream. simpl.
  unfold string_copy. by rewrite Nat.min_l by lia.
Qed.

(** C7.  [rmmLogSize] returns a byte count [n], with no failure, and there
    is one text of length [n] of which every call of [rmmGetLog] on the same
    log stores a prefix; a call with room for [n] characters stores all of
    it. *)
Theorem rmmLogSize_is_length_of_log (m : Manager.t) :
  ∃ n text,
    rmmLogSize m = returns n ∧
    length text = n ∧
    text = csv_text (getLogger m) ∧
    (∀ buffer buffer_size,
       rmmGetLog m buffer buffer_size =
         (RMM_SUCCESS,
          take (Nat.min buffer_size n) text ++ drop (Nat.min buffer_size n) buffer)) ∧
    (∀ buffer, rmmGetLog m buffer n = (RMM_SUCCESS, text ++ drop n buffer)).
Proof.
  exists (length (csv_text (getLogger m))), (csv_text (getLogger m)).
  split_and!; try done.
  - intros. apply rmmGetLog_eq.
  - intros. rewrite rmmGetLog_eq, Nat.min_id. by rewrite firstn_all.
Qed.

(** C10.  [rmmGetLog] succeeds and changes the first
    [min buffer_size (length of the text)] characters of the caller's memory
    to the characters of the text at the same positions, which are never
    more than [buffer_size]; every later position, the one right after the
    copy included, keeps what it held, so that no terminator is stored. *)
Theorem rmmGetLog_copies_min (m : Manager.t) (buffer : list ascii) (buffer_size : nat) :
  let text := csv_text (getLogger m) in
  let n := Nat.min buffer_size (length text) in
  ∃ buffer',
    rmmGetLog m buffer buffer_size = (RMM_SUCCESS, buffer') ∧
    take n buffer' = take n text ∧
    drop n buffer' = drop n buffer ∧
    n ≤ buffer_size ∧
    length buffer' = Nat.max n (length buffer).
Proof.
  intros text n. eexists. split; [apply rmmGetLog_eq|]. fold text n.
  assert (length (take n text) = n) as Hlen by (rewrite length_take; lia).
  split_and!.
  - by rewrite take_app_length'.
  - by rewrite drop_app_length'.
  - lia.
  - rewrite length_app, Hlen, length_drop. lia.
Qed.

End with_externals.

Lemma rmmInitialize_null_options_witness :
  @usePoolAllocator sample_externals (sample_manager 3 1024) = true ∧
  calls (@rmmInitialize sample_externals sample_runtime None (sample_manager 3 1024)) =
    [call_cudaGetDevice; call_cnmemInit 1 (mk_device 3 1024 1 [0%N] 0) 1].
Proof.
  split; [reflexivity|].
  apply (@rmmInitialize_null_options sample_externals sample_runtime
           (sample_manager 3 1024)); reflexivity.
Defined.

(* ===================================================================== *)
(** ** Further properties of the entry points *)
(* ===================================================================== *)

Lemma RMM_CHECK_CNMEM_falls_through (e : cnmemStatus_t) :
  RMM_CHECK_CNMEM e = None ↔ e = CNMEM_STATUS_SUCCESS.
Proof. by destruct e. Qed.

Lemma RMM_CHECK_CNMEM_not_success (e : cnmemStatus_t) :
  RMM_CHECK_CNMEM e ≠ Some RMM_SUCCESS.
Proof. by destruct e. Qed.

Section more_with_externals.
Context `{!externals Logger.t}.

(** The three ways [rmmFinalize] can go. *)
Lemma rmmFinalize_cases (rt : runtime) (m : Manager.t) :
  (usePoolAllocator m = false ∧
   rmmFinalize rt m = mk_result RMM_SUCCESS (finalize m) []) ∨
  (usePoolAllocator m = true ∧ cnmemFinalize rt = CNMEM_STATUS_SUCCESS ∧
   rmmFinalize rt m = mk_result RMM_SUCCESS (finalize m) [call_cnmemFinalize]) ∨
  (usePoolAllocator m = true ∧ cnmemFinalize rt ≠ CNMEM_STATUS_SUCCESS ∧
   ∃ e, RMM_CHECK_CNMEM (cnmemFinalize rt) = Some e ∧ e ≠ RMM_SUCCESS ∧
        rmmFinalize rt m = mk_result e m [call_cnmemFinalize]).
Proof.
  unfold rmmFinalize. destruct (usePoolAllocator m); [|by left].
  right. destruct (cnmemFinalize rt); simpl;
    [left; done|right; split_and!; [done..|eexists; split_and!; done]..].
Qed.

(** The manager [rmmInitialize] leaves, whatever its status. *)
Lemma rmmInitialize_manager (rt : runtime) (options : option rmmOptions_t)
    (m : Manager.t) :
  manager (rmmInitialize rt options m) =
    match options with Some o => setOptions o m | None => m end.
Proof.
  unfold rmmInitialize.
  repeat match goal with
  | |- context [if ?c then _ else _] => destruct c
  | |- context [let '(_, _) := ?p in _] => destruct p
  | |- context [match RMM_CHECK_CUDA ?o with Some _ => _ | None => _ end] =>
      destruct (RMM_CHECK_CUDA o)
  | |- context [match RMM_CHECK_CNMEM ?o with Some _ => _ | None => _ end] =>
      destruct (RMM_CHECK_CNMEM o)
  end; done.
Qed.

(** X12.  [rmmFinalize] succeeds exactly when pool allocation is off or
    [cnmemFinalize] succeeds, and only then is the manager finalized: when
    [cnmemFinalize] fails the function returns before [Manager::finalize],
    so the registered streams and the log are left as they were.  The
    options are kept in either case, and cnmem is called only in pool
    mode. *)
Theorem rmmFinalize_status (rt : runtime) (m : Manager.t) :
  (status (rmmFinalize rt m) = RMM_SUCCESS ↔
     usePoolAllocator m = false ∨ cnmemFinalize rt = CNMEM_STATUS_SUCCESS) ∧
  (status (rmmFinalize rt m) = RMM_SUCCESS →
     manager (rmmFinalize rt m) = finalize m) ∧
  (status (rmmFinalize rt m) ≠ RMM_SUCCESS →
     manager (rmmFinalize rt m) = m ∧
     Some (status (rmmFinalize rt m)) = RMM_CHECK_CNMEM (cnmemFinalize rt)) ∧
  options (manager (rmmFinalize rt m)) = options m ∧
  calls (rmmFinalize rt m) = if usePoolAllocator m then [call_cnmemFinalize] else [].
Proof.
  destruct (rmmFinalize_cases rt m)
    as [(Hp & ->)|[(Hp & Hs & ->)|(Hp & Hs & e & He & Hne & ->)]];
    rewrite Hp; simpl; split_and!; try done; try tauto.
  split; [done|]. intros [?|?]; done.
Qed.

(** X13.  [rmmInitialize] stores the options it is given before anything
    can fail: whatever the status, the manager afterwards holds these
    options (its own when the pointer is null) and the streams and the
    logger it had.  Without the pool flag in the resulting mode nothing is
    called and the status is success; with it, once the device is known,
    the status is success exactly when [cnmemInit] succeeds, and a failure
    of [cnmemInit] is returned as its translation. *)
Theorem rmmInitialize_stores_options_first
    (rt : runtime) (options : option rmmOptions_t) (m : Manager.t) :
  let m' := match options with Some o => setOptions o m | None => m end in
  let dev := mk_device (cudaGetDevice rt).2 (initial_pool_size (getOptions m')) 1 [0%N] 0 in
  let flags := if useManagedMemory m' then CNMEM_FLAGS_MANAGED else 0%Z in
  manager (rmmInitialize rt options m) = m' ∧
  registered_streams (manager (rmmInitialize rt options m)) = registered_streams m ∧
  logger (manager (rmmInitialize rt options m)) = logger m ∧
  (usePoolAllocator m' = false →
     status (rmmInitialize rt options m) = RMM_SUCCESS ∧
     calls (rmmInitialize rt options m) = []) ∧
  (usePoolAllocator m' = true → RMM_CHECK_CUDA (cudaGetDevice rt).1 = None →
     (status (rmmInitialize rt options m) = RMM_SUCCESS ↔
        cnmemInit rt 1 dev flags = CNMEM_STATUS_SUCCESS) ∧
     (cnmemInit rt 1 dev flags ≠ CNMEM_STATUS_SUCCESS →
        Some (status (rmmInitialize rt options m)) =
          RMM_CHECK_CNMEM (cnmemInit rt 1 dev flags))).
Proof.
  intros m' dev flags. rewrite rmmInitialize_manager. fold m'.
  split; [done|]. split; [unfold m'; by destruct options|].
  split; [unfold m'; by destruct options|].
  unfold rmmInitialize. fold m'.
  destruct (usePoolAllocator m') eqn:Hpool; [|by split].
  split; [done|]. intros _.
  unfold dev, flags. clear dev flags.
  destruct (cudaGetDevice rt) as [err d]. simpl. intros ->.
  pose proof (RMM_CHECK_CNMEM_falls_through
    (cnmemInit rt 1 (mk_device d (initial_pool_size (getOptions m')) 1 [0%N] 0)
       (if useManagedMemory m' then CNMEM_FLAGS_MANAGED else 0%Z))) as Hft.
  pose proof (RMM_CHECK_CNMEM_not_success
    (cnmemInit rt 1 (mk_device d (initial_pool_size (getOptions m')) 1 [0%N] 0)
       (if useManagedMemory m' then CNMEM_FLAGS_MANAGED else 0%Z))) as Hns.
  destruct (RMM_CHECK_CNMEM _) as [e|]; simpl.
  - split; [|done]. split; [by intros ->|]. intros Hsucc. by apply Hft in Hsucc.
  - split.
    + split; [|done]. intros _. by apply Hft.
    + intros Hne. destruct Hne. by apply Hft.
Qed.


Lemma rmmWriteLog_try_writable
    (fs : file_system) (m : Manager.t) (filename : string) :
  can_open fs filename = true →
  accepts fs filename (csv_text (getLogger m)) = true →
  rmmWriteLog_try fs m filename =
    returns (mk_ostream (csv_text (getLogger m)) (accepts fs filename) false false).
Proof.
  intros Hopen Hacc.
  unfold rmmWriteLog_try, open, Logger.to_csv, put, ofstream. rewrite Hopen. simpl.
  by rewrite Hacc.
Qed.

(** X15.  The file [rmmWriteLog] writes, when the path can be opened and
    takes the text, holds exactly the text of which [rmmLogSize] gives the
    length and which [rmmGetLog] stores when given that much room. *)
Theorem rmmWriteLog_writes_the_log
    (fs : file_system) (m : Manager.t) (filename : string) :
  can_open fs filename = true →
  accepts fs filename (csv_text (getLogger m)) = true →
  ∃ csv,
    rmmWriteLog_try fs m filename = returns csv ∧
    rmmWriteLog fs m filename = RMM_SUCCESS ∧
    failed csv = false ∧
    rmmLogSize m = returns (length (str csv)) ∧
    ∀ buffer,
      rmmGetLog m buffer (length (str csv))
      = (RMM_SUCCESS, str csv ++ drop (length (str csv)) buffer).
Proof.
  intros Hopen Hacc.
  pose proof (rmmWriteLog_try_writable fs m filename Hopen Hacc) as Htry.
  eexists. split; [exact Htry|]. unfold rmmWriteLog. rewrite Htry. simpl.
  split_and!; try done.
  intros buffer. rewrite rmmGetLog_eq, Nat.min_id. by rewrite firstn_all.
Qed.

End more_with_externals.

Lemma rmmFinalize_status_witness :
  manager (@rmmFinalize sample_externals sample_runtime_failing sample_log_manager)
  = sample_log_manager.
Proof.
  apply (@rmmFinalize_status sample_externals sample_runtime_failing sample_log_manager).
  discriminate.
Defined.

Lemma rmmInitialize_stores_options_first_witness :
  status (@rmmInitialize sample_externals sample_runtime_failing
            (Some (mk_options 1 4096 false)) (sample_manager 0 0))
    = RMM_ERROR_OUT_OF_MEMORY ∧
  getOptions (manager (@rmmInitialize sample_externals sample_runtime_failing
                         (Some (mk_options 1 4096 false)) (sample_manager 0 0)))
    = mk_options 1 4096 false.
Proof.
  pose proof (@rmmInitialize_stores_options_first sample_externals
                sample_runtime_failing (Some (mk_options 1 4096 false))
                (sample_manager 0 0)) as (Hm & _ & _ & _ & Hpool).
  destruct (Hpool eq_refl eq_refl) as [_ Hfail].
  split.
  - specialize (Hfail ltac:(discriminate)). apply (inj Some). exact Hfail.
  - by rewrite Hm.
Defined.


Lemma rmmWriteLog_writes_the_log_witness :
  ∃ csv,
    @rmmWriteLog_try sample_externals sample_fs sample_log_manager "rmm_log.csv"
      = returns csv ∧
    @rmmLogSize sample_externals sample_log_manager = returns (length (str csv)).
Proof.
  destruct (@rmmWriteLog_writes_the_log sample_externals sample_fs
              sample_log_manager "rmm_log.csv" eq_refl eq_refl)
    as (csv & H1 & _ & _ & H2 & _).
  by exists csv.
Defined.

(** *** [rmmGetAllocationOffset] *)

Lemma to_ptrdiff_small (p : N) : (p < 2 ^ 63)%N → to_ptrdiff p = Z.of_N p.
Proof.
  intros Hp. unfold to_ptrdiff.
  change (2 ^ 63)%N with 9223372036854775808%N in Hp.
  change (2 ^ 64)%Z with 18446744073709551616%Z.
  change (2 ^ 63)%Z with 9223372036854775808%Z.
  rewrite Z.mod_small by lia.
  destruct (Z.ltb_spec (Z.of_N p) 9223372036854775808); [done|lia].
Qed.

Lemma ptrdiff_sub_small (a b : Z) :
  (0 ≤ a - b < 2 ^ 63)%Z → ptrdiff_sub a b = (a - b)%Z.
Proof.
  unfold ptrdiff_sub.
  change (2 ^ 64)%Z with 18446744073709551616%Z.
  change (2 ^ 63)%Z with 9223372036854775808%Z.
  intros H. rewrite Z.mod_small by lia. lia.
Qed.

(** X16.  [rmmGetAllocationOffset] returns [RMM_ERROR_INVALID_ARGUMENT]
    and leaves [*offset] alone when the driver does not know the pointer.
    When the driver answers with the base of the allocation, at or below
    the pointer, the status is success and the offset is the distance from
    that base: base plus offset is the pointer.  The stream plays no part. *)
Theorem rmmGetAllocationOffset_offset
    (driver : N → N → CUresult * N) (offset : Z) (ptr : N) (stream : cudaStream_t) :
  (∀ code base,
     driver 0xffffffff%N ptr = (CUDA_ERROR code, base) →
     rmmGetAllocationOffset driver offset ptr stream
       = (RMM_ERROR_INVALID_ARGUMENT, offset)) ∧
  (∀ base,
     driver 0xffffffff%N ptr = (CUDA_SUCCESS, base) →
     (base ≤ ptr)%N → (ptr < 2 ^ 63)%N →
     ∃ off,
       rmmGetAllocationOffset driver offset ptr stream = (RMM_SUCCESS, off) ∧
       (0 ≤ off)%Z ∧ (Z.of_N base + off = Z.of_N ptr)%Z) ∧
  (∀ stream',
     rmmGetAllocationOffset driver offset ptr stream'
     = rmmGetAllocationOffset driver offset ptr stream).
Proof.
  unfold rmmGetAllocationOffset. split_and!.
  - by intros code base ->.
  - intros base -> Hle Hlt. eexists. split; [reflexivity|].
    rewrite !to_ptrdiff_small by lia.
    rewrite ptrdiff_sub_small; [lia|].
    change (2 ^ 63)%N with 9223372036854775808%N in Hlt.
    change (2 ^ 63)%Z with 9223372036854775808%Z. lia.
  - done.
Qed.

Lemma rmmGetAllocationOffset_offset_witness :
  ∃ off,
    rmmGetAllocationOffset sample_driver 0%Z (65536 + 100)%N 0%N = (RMM_SUCCESS, off) ∧
    (Z.of_N 65536 + off = Z.of_N (65536 + 100))%Z.
Proof.
  destruct (rmmGetAllocationOffset_offset sample_driver 0%Z (65536 + 100)%N 0%N)
    as (_ & H & _).
  destruct (H 65536%N) as (off & H1 & _ & H2); [reflexivity|lia|reflexivity|].
  by exists off.
Defined.

Section default_mode.
Context `{!externals Logger.t}.

(** X17.  When the default-allocation value has no bit in common with the
    pool flag, a manager in default mode is not in pool mode, and neither
    [rmmInitialize] with the null pointer nor [rmmFinalize] calls the CUDA
    runtime or cnmem: both succeed, the first leaves the manager alone and
    the second finalizes it. *)
Theorem default_mode_makes_no_calls (rt : runtime) (m : Manager.t) :
  Z.land CudaDefaultAllocation PoolAllocation = 0%Z →
  useCudaDefaultAllocator m = true →
  usePoolAllocator m = false ∧
  rmmInitialize rt None m = mk_result RMM_SUCCESS m [] ∧
  rmmFinalize rt m = mk_result RMM_SUCCESS (finalize m) [].
Proof.
  intros Hflags Hdefault.
  assert (usePoolAllocator m = false) as Hpool.
  { unfold useCudaDefaultAllocator, usePoolAllocator in *.
    apply Z.eqb_eq in Hdefault. by rewrite <- Hdefault, Hflags. }
  unfold rmmInitialize, rmmFinalize. by rewrite Hpool.
Qed.

(** X18.  [rmmGetLog] with a buffer size of zero leaves the caller's memory
    as it is; a second call with the same arguments on the memory the first
    one left changes nothing; and the first [k] characters stored for the
    buffer size [k] are those stored for any larger buffer size. *)
Theorem rmmGetLog_stable (m : Manager.t) (buffer : list ascii) (k k' : nat) :
  (rmmGetLog m buffer 0).2 = buffer ∧
  rmmGetLog m (rmmGetLog m buffer k).2 k = rmmGetLog m buffer k ∧
  (k ≤ k' → take k (rmmGetLog m buffer k).2 = take k (rmmGetLog m buffer k').2).
Proof.
  rewrite !rmmGetLog_eq. simpl.
  set (text := csv_text (getLogger m)).
  split_and!.
  - by rewrite drop_0.
  - f_equal. f_equal.
    rewrite drop_app_length'; [done|]. rewrite length_take. lia.
  - intros Hle.
    destruct (decide (k ≤ length text)) as [Hk|Hk].
    + rewrite (Nat.min_l k) by done.
      rewrite take_app_length' by (rewrite length_take; lia).
      rewrite take_app_le by (rewrite length_take; lia).
      rewrite take_take. f_equal. lia.
    + by rewrite !Nat.min_r by lia.
Qed.

End default_mode.

Lemma default_mode_makes_no_calls_witness :
  @rmmInitialize sample_externals sample_runtime None (sample_manager 0 0)
  = mk_result RMM_SUCCESS (sample_manager 0 0) [].
Proof.
  by apply (@default_mode_makes_no_calls sample_externals sample_runtime
              (sample_manager 0 0)).
Defined.

Lemma rmmGetLog_stable_witness :
  take 1 (@rmmGetLog sample_externals sample_log_manager ["x"; "y"; "z"]%char 1).2
  = take 1 (@rmmGetLog sample_externals sample_log_manager ["x"; "y"; "z"]%char 3).2.
Proof.
  apply (@rmmGetLog_stable sample_externals sample_log_manager ["x"; "y"; "z"]%char 1 3).
  lia.
Defined.

End rmm_theory.

(* ===================================================================== *)
(** * Evaluations *)
(* ===================================================================== *)

Module evaluations.
Import Block free_list free_list_spec api ios Manager rmm samples.

Example insert_three_way :
  insert_range [] [Block.mk 0 10; Block.mk 20 10; Block.mk 10 10] = [Block.mk 0 30].
Proof. reflexivity. Qed.

Example insert_between_without_neighbours :
  insert_range [] [Block.mk 0 10; Block.mk 40 10; Block.mk 20 10]
  = [Block.mk 0 10; Block.mk 20 10; Block.mk 40 10].
Proof. reflexivity. Qed.

Example best_fit_prefers_smaller_later_block :
  best_fit [Block.mk 0 200; Block.mk 1000 100] 60
  = (Block.mk 1000 100, [Block.mk 0 200]).
Proof. reflexivity. Qed.

Example best_fit_first_of_equal_sizes :
  best_fit [Block.mk 0 100; Block.mk 1000 100] 60
  = (Block.mk 0 100, [Block.mk 1000 100]).
Proof. reflexivity. Qed.

(** The path cannot be opened: nothing is written, the stream is in its
    error state, and the status is [RMM_SUCCESS]. *)
Example rmmWriteLog_unwritable_path :
  @rmmWriteLog sample_externals sample_fs sample_log_manager "/no/such/dir/rmm_log.csv"
    = RMM_SUCCESS ∧
  ∃ csv,
    @rmmWriteLog_try sample_externals sample_fs sample_log_manager
      "/no/such/dir/rmm_log.csv" = returns csv ∧
    failed csv = true ∧ str csv = [].
Proof. split; [reflexivity|]. eexists. by split_and!. Qed.

Example rmmWriteLog_writable_path :
  ∃ csv,
    @rmmWriteLog_try sample_externals sample_fs sample_log_manager "rmm_log.csv"
      = returns csv ∧
    failed csv = false ∧ str csv = ["e"; "e"]%char.
Proof. eexists. by split_and!. Qed.

Example rmmLogSize_sample :
  @rmmLogSize sample_externals sample_log_manager = returns 2.
Proof. reflexivity. Qed.

Example rmmGetLog_short_buffer :
  @rmmGetLog sample_externals sample_log_manager ["x"; "y"; "z"; "w"]%char 1
  = (RMM_SUCCESS, ["e"; "y"; "z"; "w"]%char).
Proof. reflexivity. Qed.

Example rmmGetLog_long_buffer :
  @rmmGetLog sample_externals sample_log_manager ["x"; "y"; "z"; "w"]%char 4
  = (RMM_SUCCESS, ["e"; "e"; "z"; "w"]%char).
Proof. reflexivity. Qed.

Example finalize_sample :
  finalize sample_log_manager
  = Manager.mk ∅ (Logger.mk ∅ 0 []) (mk_options 1 1024 false).
Proof. reflexivity. Qed.

End evaluations.
